(** * muralis-gui: the process bridge and the application bootstrap

    A shallow embedding of [src/muralis-gui/src/processrunner.cpp] and of
    [src/muralis-gui/src/main.cpp].

    The program is glue code over Qt.  What the repository's own code does
    is translated statement by statement; what Qt does (QProcess, the event
    loop, QJsonDocument, QStandardPaths) is the environment, modelled after
    Qt's documented behaviour and kept apart from the program:

    - [Module Qt]: strings and byte arrays;
    - [Module ProcessRunner]: a heap of QProcess objects, the operations
      of QProcess the code calls, [ProcessRunner::run] and its lambda in a
      small state-and-failure monad, and the event loop as a step function
      over the events the toolkit and the operating system deliver;
    - [Module Main]: Qt's JSON values, [readJsonFile], and [main] as a
      function from the platform's answers to the list of actions
      performed and the value returned;
    - [Module RunnerProps] and [Module MainProps]: what is proved of them. *)

From Stdlib Require Import ZArith NArith Ascii String.
From Stdlib Require Import Strings.Byte.
From Stdlib Require Import Floats.SpecFloat.
From stdpp Require Import gmap strings list fin_maps pretty.

Set Warnings "-register-all".

(* ===================================================================== *)
(** * Qt value types *)
(* ===================================================================== *)

Module Qt.

(** A QString is a sequence of UTF-16 code units. *)
Definition QChar := N.
Definition QString := list QChar.
Definition QStringList := list QString.

(** A QByteArray is a sequence of bytes. *)
Definition QByteArray := list byte.

Global Instance byte_eq_decision : EqDecision byte := Byte.byte_eq_dec.

(** An ASCII literal of the source, as a QString. *)
Definition QStringLiteral (s : string) : QString :=
  (λ a, N.of_nat (nat_of_ascii a)) <$> list_ascii_of_string s.

(** The line feed that ends the lines the program prints. *)
Definition newline : string := String "010" EmptyString.

(** What [%d] prints for a bool. *)
Definition bool_digit (b : bool) : QString :=
  QStringLiteral (if b then "1" else "0").

End Qt.
Export Qt.

(* ===================================================================== *)
(** * The process bridge: processrunner.cpp *)
(* ===================================================================== *)

Module ProcessRunner.

(** [QProcess::ProcessState] and [QProcess::ExitStatus]. *)
Inductive ProcessState := NotRunning | Starting | Running.
Inductive ExitStatus := NormalExit | CrashExit.

Global Instance ProcessState_eq_dec : EqDecision ProcessState.
Proof. solve_decision. Defined.

(** A [QProcess *].  [new] hands out the objects' serial numbers, so that
    an address reused after a deletion cannot identify two objects. *)
Definition QProcessPtr := nat.

(** The closure the lambda expression of [run] evaluates to: its capture
    list is [this, proc, requestId] and [this] is the only ProcessRunner. *)
Record Closure := mkClosure {
  cap_proc : QProcessPtr;
  cap_requestId : QString }.

(** The part of a QProcess object the program observes.  The channel mode
    is the default one, [QProcess::SeparateChannels]: the two output
    streams of the child are buffered apart. *)
Record QProcess := mkQProcess {
  program : QString;
  arguments : QStringList;
  state : ProcessState;
  stdoutBuffer : QByteArray;
  stderrBuffer : QByteArray;
  finishedSlots : list Closure;
  deferredDelete : bool }.

(** One emission of [ProcessRunner::finished(requestId, stdoutData, exitCode)]. *)
Record FinishedSignal := mkFinished {
  sig_requestId : QString;
  sig_stdoutData : QString;
  sig_exitCode : Z }.

(** A request to the operating system to execute [program] with [arguments]. *)
Record Spawn := mkSpawn {
  spawn_proc : QProcessPtr;
  spawn_program : QString;
  spawn_arguments : QStringList }.

(** The state the event loop runs on.  [emitted] lists the emissions of
    [ProcessRunner::finished], oldest first, each labelled with the
    [proc] captured by the closure that emitted it. *)
Record World := mkWorld {
  heap : gmap QProcessPtr QProcess;
  next_ptr : QProcessPtr;
  spawned : list Spawn;
  emitted : list (QProcessPtr * FinishedSignal) }.

Definition init : World :=
  {| heap := ∅; next_ptr := 0; spawned := []; emitted := [] |}.

Definition set_heap (h : gmap QProcessPtr QProcess) (w : World) : World :=
  {| heap := h; next_ptr := next_ptr w; spawned := spawned w; emitted := emitted w |}.

Definition set_state (s : ProcessState) (q : QProcess) : QProcess :=
  {| program := program q; arguments := arguments q; state := s;
     stdoutBuffer := stdoutBuffer q; stderrBuffer := stderrBuffer q;
     finishedSlots := finishedSlots q; deferredDelete := deferredDelete q |}.

Definition set_stdout (b : QByteArray) (q : QProcess) : QProcess :=
  {| program := program q; arguments := arguments q; state := state q;
     stdoutBuffer := b; stderrBuffer := stderrBuffer q;
     finishedSlots := finishedSlots q; deferredDelete := deferredDelete q |}.

Definition set_stderr (b : QByteArray) (q : QProcess) : QProcess :=
  {| program := program q; arguments := arguments q; state := state q;
     stdoutBuffer := stdoutBuffer q; stderrBuffer := b;
     finishedSlots := finishedSlots q; deferredDelete := deferredDelete q |}.

(** ** The monad of the program: state, and failure for the use of a
    pointer to an object that is not there (undefined behaviour). *)

Definition M (A : Type) : Type := World → option (A * World).

Global Instance M_ret : MRet M := λ A a w, Some (a, w).
Global Instance M_bind : MBind M := λ A B f m w,
  match m w with
  | Some (a, w') => f a w'
  | None => None
  end.

(** Read and update the object behind [p]. *)
Definition with_proc {A} (p : QProcessPtr) (f : QProcess → A * QProcess) : M A :=
  λ w, match heap w !! p with
       | Some q => Some ((f q).1, set_heap (<[p := (f q).2]> (heap w)) w)
       | None => None
       end.

(** ** The operations of Qt the code calls *)

(** [new QProcess(this)]: a fresh object, not running, nothing connected. *)
Definition new_QProcess : M QProcessPtr :=
  λ w, let p := next_ptr w in
       Some (p, {| heap := <[p := {| program := []; arguments := [];
                                     state := NotRunning;
                                     stdoutBuffer := []; stderrBuffer := [];
                                     finishedSlots := [];
                                     deferredDelete := false |}]> (heap w);
                   next_ptr := S p;
                   spawned := spawned w;
                   emitted := emitted w |}).

(** [connect(proc, &QProcess::finished, this, closure)]. *)
Definition connect_finished (proc : QProcessPtr) (c : Closure) : M unit :=
  with_proc proc (λ q,
    (tt, {| program := program q; arguments := arguments q; state := state q;
            stdoutBuffer := stdoutBuffer q; stderrBuffer := stderrBuffer q;
            finishedSlots := finishedSlots q ++ [c];
            deferredDelete := deferredDelete q |})).

(** [proc->start(program, arguments)]: returns at once; an object that is
    already starting or running only warns and is left alone. *)
Definition QProcess_start (proc : QProcessPtr) (prog : QString)
    (args : QStringList) : M unit :=
  λ w, match heap w !! proc with
       | Some q =>
           match state q with
           | NotRunning =>
               Some (tt, {| heap := <[proc := {| program := prog; arguments := args;
                                                 state := Starting;
                                                 stdoutBuffer := []; stderrBuffer := [];
                                                 finishedSlots := finishedSlots q;
                                                 deferredDelete := deferredDelete q |}]>
                                      (heap w);
                            next_ptr := next_ptr w;
                            spawned := spawned w ++ [mkSpawn proc prog args];
                            emitted := emitted w |})
           | _ => Some (tt, w)
           end
       | None => None
       end.

(** [proc->readAllStandardOutput()]: all buffered bytes of the standard
    output channel, which are removed from the buffer. *)
Definition readAllStandardOutput (proc : QProcessPtr) : M QByteArray :=
  with_proc proc (λ q, (stdoutBuffer q, set_stdout [] q)).

(** [proc->deleteLater()]: the object is deleted when control returns to
    the event loop. *)
Definition deleteLater (proc : QProcessPtr) : M unit :=
  with_proc proc (λ q,
    (tt, {| program := program q; arguments := arguments q; state := state q;
            stdoutBuffer := stdoutBuffer q; stderrBuffer := stderrBuffer q;
            finishedSlots := finishedSlots q; deferredDelete := true |})).

(** [emit finished(requestId, stdoutData, exitCode)], from closure [origin]. *)
Definition emit_finished (origin : QProcessPtr) (requestId stdoutData : QString)
    (exitCode : Z) : M unit :=
  λ w, Some (tt, {| heap := heap w; next_ptr := next_ptr w; spawned := spawned w;
                    emitted := emitted w ++
                      [(origin, mkFinished requestId stdoutData exitCode)] |}).

Section Program.

(** [QString::fromUtf8], Qt's decoder. *)
Variable fromUtf8 : QByteArray → QString.

(** ** processrunner.cpp, lines 8 to 12: the body of the lambda *)
Definition lambda_finished (proc : QProcessPtr) (requestId : QString)
    (exitCode : Z) (_ : ExitStatus) : M unit :=
  bytes ← readAllStandardOutput proc;
  let output := fromUtf8 bytes in
  emit_finished proc requestId output exitCode;;
  deleteLater proc.

(** ** processrunner.cpp, lines 5 to 14: [ProcessRunner::run] *)
Definition run (requestId : QString) (args : QStringList) : M unit :=
  proc ← new_QProcess;
  connect_finished proc (mkClosure proc requestId);;
  QProcess_start proc (QStringLiteral "muralis") args.

(** ** The event loop *)

(** What can happen: the QML side calls [CLI.run], or the toolkit reports
    something about the child of process object [p].  A child that could
    not be executed is reported as [errorOccurred(FailedToStart)], and
    QProcess emits [finished] only for a child that had started. *)
Inductive Event :=
| CallRun (requestId : QString) (args : QStringList)
| OsStarted (p : QProcessPtr)
| OsFailedToStart (p : QProcessPtr)
| OsStdout (p : QProcessPtr) (bytes : QByteArray)
| OsStderr (p : QProcessPtr) (bytes : QByteArray)
| OsExited (p : QProcessPtr) (exitCode : Z) (st : ExitStatus)
| DeferredDelete (p : QProcessPtr).

Definition proc_in (s : ProcessState) (p : QProcessPtr) (w : World) : bool :=
  match heap w !! p with
  | Some q => bool_decide (state q = s)
  | None => false
  end.

(** The events the environment can deliver in world [w]. *)
Definition enabled (w : World) (e : Event) : bool :=
  match e with
  | CallRun _ _ => true
  | OsStarted p | OsFailedToStart p => proc_in Starting p w
  | OsStdout p _ | OsStderr p _ | OsExited p _ _ => proc_in Running p w
  | DeferredDelete p =>
      match heap w !! p with
      | Some q => deferredDelete q
      | None => false
      end
  end.

(** Signal delivery: the connected closures are called in connection order. *)
Fixpoint invoke_all (slots : list Closure) (exitCode : Z) (st : ExitStatus)
    : M unit :=
  match slots with
  | [] => mret tt
  | c :: rest =>
      lambda_finished (cap_proc c) (cap_requestId c) exitCode st;;
      invoke_all rest exitCode st
  end.

(** What one event does.  Nothing is connected to [started],
    [errorOccurred] or [readyRead]: those only change the process object. *)
Definition handle (e : Event) : M unit :=
  match e with
  | CallRun requestId args => run requestId args
  | OsStarted p => with_proc p (λ q, (tt, set_state Running q))
  | OsFailedToStart p => with_proc p (λ q, (tt, set_state NotRunning q))
  | OsStdout p bytes =>
      with_proc p (λ q, (tt, set_stdout (stdoutBuffer q ++ bytes) q))
  | OsStderr p bytes =>
      with_proc p (λ q, (tt, set_stderr (stderrBuffer q ++ bytes) q))
  | OsExited p exitCode st =>
      slots ← with_proc p (λ q, (finishedSlots q, set_state NotRunning q));
      invoke_all slots exitCode st
  | DeferredDelete p =>
      λ w, Some (tt, set_heap (delete p (heap w)) w)
  end.

(** One turn of the loop: [None] when the event cannot occur in [w], or
    when handling it runs into undefined behaviour. *)
Definition step (w : World) (e : Event) : option World :=
  if enabled w e then snd <$> handle e w else None.

Fixpoint exec (w : World) (tr : list Event) : option World :=
  match tr with
  | [] => Some w
  | e :: tr' =>
      match step w e with
      | Some w' => exec w' tr'
      | None => None
      end
  end.

(** ** Reading a trace *)

(** The calls of [run], in order: call number [p] creates object [p]. *)
Fixpoint calls (tr : list Event) : list (QString * QStringList) :=
  match tr with
  | [] => []
  | CallRun requestId args :: tr' => (requestId, args) :: calls tr'
  | _ :: tr' => calls tr'
  end.

(** Everything the child of [p] wrote to its standard output. *)
Fixpoint stdout_written (p : QProcessPtr) (tr : list Event) : QByteArray :=
  match tr with
  | [] => []
  | OsStdout p' bytes :: tr' =>
      if decide (p' = p) then bytes ++ stdout_written p tr' else stdout_written p tr'
  | _ :: tr' => stdout_written p tr'
  end.

(** The exit codes reported for the child of [p]. *)
Fixpoint exits (p : QProcessPtr) (tr : list Event) : list Z :=
  match tr with
  | [] => []
  | OsExited p' exitCode _ :: tr' =>
      if decide (p' = p) then exitCode :: exits p tr' else exits p tr'
  | _ :: tr' => exits p tr'
  end.

(** Whether the child of [p] was reported as not executable. *)
Fixpoint failed (p : QProcessPtr) (tr : list Event) : bool :=
  match tr with
  | [] => false
  | OsFailedToStart p' :: tr' => bool_decide (p' = p) || failed p tr'
  | _ :: tr' => failed p tr'
  end.

(** The [finished] signals emitted by the closure of object [p]. *)
Definition emitted_for (p : QProcessPtr) (w : World) : list FinishedSignal :=
  snd <$> filter (λ x, x.1 = p) (emitted w).


(** The object an event is about. *)
Definition target (e : Event) : option QProcessPtr :=
  match e with
  | CallRun _ _ => None
  | OsStarted p | OsFailedToStart p | OsStdout p _ | OsStderr p _
  | OsExited p _ _ | DeferredDelete p => Some p
  end.

(** ** The invariant of the event loop *)

(** The signals the closure of object [p] has to have emitted after [tr]. *)
Definition own_signals (requestId : QString) (p : QProcessPtr)
    (tr : list Event) : list FinishedSignal :=
  (λ c, mkFinished requestId (fromUtf8 (stdout_written p tr)) c) <$> exits p tr.

(** What holds of the object created by call number [p] of [run]. *)
Definition proc_inv (tr : list Event) (w : World) (p : QProcessPtr)
    (requestId : QString) (args : QStringList) : Prop :=
  emitted_for p w = own_signals requestId p tr ∧
  match heap w !! p with
  | Some q =>
      finishedSlots q = [mkClosure p requestId] ∧
      program q = QStringLiteral "muralis" ∧
      arguments q = args ∧
      match state q with
      | Starting =>
          stdoutBuffer q = [] ∧ stdout_written p tr = [] ∧ exits p tr = [] ∧
          failed p tr = false ∧ deferredDelete q = false
      | Running =>
          stdoutBuffer q = stdout_written p tr ∧ exits p tr = [] ∧
          failed p tr = false ∧ deferredDelete q = false
      | NotRunning =>
          if deferredDelete q
          then length (exits p tr) = 1 ∧ failed p tr = false
          else exits p tr = [] ∧ failed p tr = true
      end
  | None => length (exits p tr) = 1 ∧ failed p tr = false
  end.

(** What holds of a serial number no call has been given yet. *)
Definition unused_inv (tr : list Event) (w : World) (p : QProcessPtr) : Prop :=
  heap w !! p = None ∧ emitted_for p w = [] ∧
  stdout_written p tr = [] ∧ exits p tr = [] ∧ failed p tr = false.

Definition inv (tr : list Event) (w : World) : Prop :=
  next_ptr w = length (calls tr) ∧
  spawned w = imap (λ p c, mkSpawn p (QStringLiteral "muralis") c.2) (calls tr) ∧
  (∀ p, length (calls tr) ≤ p → unused_inv tr w p) ∧
  (∀ p requestId args,
     calls tr !! p = Some (requestId, args) → proc_inv tr w p requestId args).

End Program.

(** ** A concrete run *)

(** A decoder to run the model with: a byte below 128 is the code unit of
    the same value, as in UTF-8, and any other byte is U+FFFD. *)
Definition decode_ascii (bytes : QByteArray) : QString :=
  (λ b, let n := Byte.to_N b in if (n <? 128)%N then n else 65533%N) <$> bytes.

(** Three calls: two children that overlap, write and exit, and one that
    cannot be executed. *)
Definition sample_trace : list Event :=
  [ CallRun (QStringLiteral "req-1") [QStringLiteral "list"];
    CallRun (QStringLiteral "req-2") [QStringLiteral "apply"; QStringLiteral "x"];
    OsStarted 1;
    OsStdout 1 [x68; x69];
    OsStarted 0;
    OsStderr 1 [x21];
    OsStdout 0 [x41];
    OsExited 1 0 NormalExit;
    CallRun (QStringLiteral "req-3") [];
    OsFailedToStart 2;
    OsExited 0 3 NormalExit;
    DeferredDelete 1 ].

Definition sample_world : World :=
  default init (exec decode_ascii init sample_trace).

(** What the closure of object 1 emits in that run. *)
Definition sample_signal : FinishedSignal :=
  mkFinished (QStringLiteral "req-2") (QStringLiteral "hi") 0.

(** One call whose child cannot be executed. *)
Definition failing_trace : list Event :=
  [ CallRun (QStringLiteral "req-1") [QStringLiteral "list"];
    OsFailedToStart 0 ].

Definition failed_world : World :=
  default init (exec decode_ascii init failing_trace).

(** The world after that one call. *)
Definition init_called : World :=
  default init
    (exec decode_ascii init [CallRun (QStringLiteral "req-1") [QStringLiteral "list"]]).

(** Two calls, the first child running. *)
Definition running_trace : list Event :=
  [ CallRun (QStringLiteral "req-1") [QStringLiteral "list"];
    CallRun (QStringLiteral "req-2") [];
    OsStarted 0 ].

Definition running_world : World :=
  default init (exec decode_ascii init running_trace).

(** ** More readings of a trace *)

(** The objects whose child exited, in the order of the exits. *)
Fixpoint exit_order (tr : list Event) : list QProcessPtr :=
  match tr with
  | [] => []
  | OsExited p _ _ :: tr' => p :: exit_order tr'
  | _ :: tr' => exit_order tr'
  end.

(** The trace without what the children wrote to their standard error. *)
Fixpoint strip_stderr (tr : list Event) : list Event :=
  match tr with
  | [] => []
  | OsStderr _ _ :: tr' => strip_stderr tr'
  | e :: tr' => e :: strip_stderr tr'
  end.

(** The world with the standard-error buffers of all objects emptied. *)
Definition erase_stderr (w : World) : World :=
  set_heap (set_stderr [] <$> heap w) w.

(** A run in which the child of object 0 writes to both channels. *)
Definition noisy_trace : list Event :=
  [ CallRun (QStringLiteral "req-1") [QStringLiteral "list"];
    OsStarted 0;
    OsStderr 0 [x21];
    OsStdout 0 [x41];
    OsStderr 0 [x21; x21];
    OsExited 0 0 NormalExit ].

Definition noisy_world : World :=
  default init (exec decode_ascii init noisy_trace).

(** An operation that does the same with and without the contents of the
    standard-error buffers. *)
Definition ignores_stderr {A} (m : M A) : Prop :=
  ∀ w, m (erase_stderr w) = (λ aw, (aw.1, erase_stderr aw.2)) <$> m w.

End ProcessRunner.

(* ===================================================================== *)
(** * The application bootstrap: main.cpp *)
(* ===================================================================== *)

Module Main.

(** ** Qt's JSON values *)

(** [QJsonValue], by its [type()]. *)
Inductive QJsonValue :=
| QJsonNull
| QJsonBool (b : bool)
| QJsonDouble (d : spec_float)
| QJsonString (s : QString)
| QJsonArray (a : list QJsonValue)
| QJsonObject (o : gmap QString QJsonValue)
| QJsonUndefined.

(** [QJsonDocument]: null (also the result of a failed parse), or holding
    an array, or holding an object. *)
Inductive QJsonDocument :=
| DocNull
| DocArray (a : list QJsonValue)
| DocObject (o : gmap QString QJsonValue).

(** [QJsonDocument::object()]: the object held, and an empty object when
    the document holds anything else. *)
Definition QJsonDocument_object (d : QJsonDocument) : gmap QString QJsonValue :=
  match d with
  | DocObject o => o
  | _ => ∅
  end.

(** [QJsonObject::value(key)]: [QJsonValue::Undefined] for an absent key. *)
Definition QJsonObject_value (o : gmap QString QJsonValue) (key : QString)
    : QJsonValue :=
  default QJsonUndefined (o !! key).

(** [QJsonValue::toBool(defaultValue)]. *)
Definition toBool (v : QJsonValue) (defaultValue : bool) : bool :=
  match v with
  | QJsonBool b => b
  | _ => defaultValue
  end.

(** ** [QString::replace(before, after)], for a non-empty [before]: every
    occurrence, found from left to right, is replaced. *)

Fixpoint starts_with (before s : QString) : bool :=
  match before, s with
  | [], _ => true
  | b :: before', c :: s' => bool_decide (b = c) && starts_with before' s'
  | _ :: _, [] => false
  end.

Fixpoint replace_from (skip : nat) (before after s : QString) : QString :=
  match s with
  | [] => []
  | c :: s' =>
      match skip with
      | S k => replace_from k before after s'
      | 0 =>
          if starts_with before s
          then after ++ replace_from (length before - 1) before after s'
          else c :: replace_from 0 before after s'
      end
  end.

Definition QString_replace (before after s : QString) : QString :=
  replace_from 0 before after s.

(** ** What the platform answers *)

Inductive StandardLocation := GenericDataLocation | ConfigLocation.

Record Platform := mkPlatform {
  (** [QStandardPaths::writableLocation] *)
  writableLocation : StandardLocation → QString;
  (** [QFile::open(QIODevice::ReadOnly)] and [readAll]: [None] when the
      file cannot be opened *)
  file_contents : QString → option QByteArray;
  (** the number of root objects the engine has after [load] *)
  rootObjects_size : nat;
  (** the value [app.exec()] returns when the event loop ends *)
  exec_result : Z }.

(** ** What [main] does, in order *)

Inductive QVariant :=
| VariantRunner
| VariantString (s : QString).

Inductive Action :=
| qInstallMessageHandler
| qputenv (name value : string)
| new_QGuiApplication
| setApplicationName (name : QString)
| setOrganizationName (name : QString)
| setStyle (style : QString)
| new_QQmlApplicationEngine
| new_ProcessRunner
| setContextProperty (name : QString) (value : QVariant)
| addImportPath (path : QString)
| fprintf_stderr (text : QString)
| engine_load (url : QString)
| app_exec.

(** ** main.cpp, lines 5 to 17: the bytes [messageHandler] prints *)

Inductive QtMsgType :=
| QtDebugMsg | QtWarningMsg | QtCriticalMsg | QtFatalMsg | QtInfoMsg.

Section MessageHandler.

(** What [%s] prints of [qPrintable(msg)]: the local 8-bit form of the
    text, up to its first zero byte. *)
Variable qPrintable : QString → QByteArray.

Definition messageHandler (type : QtMsgType) (msg : QString) : QByteArray :=
  let prefix :=
    match type with
    | QtDebugMsg => "debug"
    | QtWarningMsg => "warn"
    | QtCriticalMsg => "crit"
    | QtFatalMsg => "fatal"
    | QtInfoMsg => "info"
    end in
  list_byte_of_string "[" ++ list_byte_of_string prefix
    ++ list_byte_of_string "] " ++ qPrintable msg ++ list_byte_of_string newline.

End MessageHandler.

Section Program.

(** [QJsonDocument::fromJson], Qt's parser: [DocNull] for bytes that are
    not a JSON document. *)
Variable fromJson : QByteArray → QJsonDocument.

(** ** main.cpp, lines 28 to 32 *)
Definition readJsonFile (plat : Platform) (path : QString)
    : gmap QString QJsonValue :=
  match file_contents plat path with
  | None => ∅
  | Some bytes => QJsonDocument_object (fromJson bytes)
  end.

(** Lines 39 and 40. *)
Definition stateDir (plat : Platform) : QString :=
  QString_replace (QStringLiteral "/share") (QStringLiteral "/state")
    (writableLocation plat GenericDataLocation).

(** The argument of [readJsonFile] on line 41. *)
Definition session_path (plat : Platform) : QString :=
  stateDir plat ++ QStringLiteral "/DankMaterialShell/session.json".

(** Line 42. *)
Definition isDark (plat : Platform) : bool :=
  let session := readJsonFile plat (session_path plat) in
  negb (toBool (QJsonObject_value session (QStringLiteral "isLightMode")) false).

(** Lines 35 to 71: what is done up to and including [engine.load], for
    the values computed on the way. *)
Definition bootstrap (isDark : bool) (configDir stateDir : QString)
    : list Action :=
  [ qInstallMessageHandler;
    qputenv "QML_XHR_ALLOW_FILE_READ" "1";
    qputenv "QT_QUICK_CONTROLS_MATERIAL_THEME" (if isDark then "Dark" else "Light");
    new_QGuiApplication;
    setApplicationName (QStringLiteral "muralis-gui");
    setOrganizationName (QStringLiteral "muralis");
    setStyle (QStringLiteral "Material");
    new_QQmlApplicationEngine;
    new_ProcessRunner;
    setContextProperty (QStringLiteral "CLI") VariantRunner;
    setContextProperty (QStringLiteral "ConfigDir") (VariantString configDir);
    setContextProperty (QStringLiteral "StateDir") (VariantString stateDir);
    addImportPath (QStringLiteral "qrc:/");
    fprintf_stderr (QStringLiteral ("Loading QML..." ++ newline));
    fprintf_stderr (QStringLiteral "ConfigDir: " ++ configDir
                      ++ QStringLiteral newline);
    fprintf_stderr (QStringLiteral "StateDir: " ++ stateDir
                      ++ QStringLiteral newline);
    fprintf_stderr (QStringLiteral "isDark: " ++ bool_digit isDark
                      ++ QStringLiteral newline);
    engine_load (QStringLiteral "qrc:/MuralisGui/qml/main.qml") ].

(** ** main.cpp, lines 34 to 79: the actions of [main] and its result *)
Definition main (plat : Platform) : list Action * Z :=
  let configDir := writableLocation plat ConfigLocation in
  let loaded := bootstrap (isDark plat) configDir (stateDir plat) in
  if bool_decide (rootObjects_size plat = 0)
  then
    (loaded ++ [fprintf_stderr (QStringLiteral ("Failed to load QML" ++ newline))],
     (-1)%Z)
  else
    (loaded ++
       [fprintf_stderr (QStringLiteral "QML loaded OK, "
                          ++ QStringLiteral (pretty (rootObjects_size plat))
                          ++ QStringLiteral (" root objects" ++ newline));
        app_exec],
     exec_result plat).

(** The exit status the parent process sees: the low eight bits of what
    [main] returns. *)
Definition exit_status (ret : Z) : Z := Z.land ret 255.

(** The value the environment variable [name] has after the actions. *)
Fixpoint getenv (name : string) (acts : list Action) : option string :=
  match acts with
  | [] => None
  | a :: rest =>
      match getenv name rest with
      | Some v => Some v
      | None =>
          match a with
          | qputenv n v => if decide (n = name) then Some v else None
          | _ => None
          end
      end
  end.

End Program.

(** ** Concrete platforms *)

(** The bytes of the one-member document whose member [isLightMode] is
    the boolean true. *)
Definition light_session_bytes : QByteArray :=
  [ x7b; x22; x69; x73; x4c; x69; x67; x68; x74; x4d; x6f; x64; x65; x22;
    x3a; x74; x72; x75; x65; x7d ].

(** A parser to run the model with: it knows that one document and
    rejects every other input. *)
Definition parse_sample (bytes : QByteArray) : QJsonDocument :=
  if bool_decide (bytes = light_session_bytes)
  then DocObject {[ QStringLiteral "isLightMode" := QJsonBool true ]}
  else DocNull.

Definition sample_locations (l : StandardLocation) : QString :=
  match l with
  | GenericDataLocation => QStringLiteral "/home/u/.local/share"
  | ConfigLocation => QStringLiteral "/home/u/.config"
  end.

(** No session file, and a UI description that does not load. *)
Definition bare_platform : Platform :=
  {| writableLocation := sample_locations;
     file_contents := λ _, None;
     rootObjects_size := 0;
     exec_result := 0 |}.

(** A session file cut short after its first byte. *)
Definition broken_platform : Platform :=
  {| writableLocation := sample_locations;
     file_contents := λ path,
       if bool_decide (path =
            QStringLiteral "/home/u/.local/state/DankMaterialShell/session.json")
       then Some [x7b] else None;
     rootObjects_size := 1;
     exec_result := 0 |}.

(** A session file that asks for the light mode. *)
Definition light_platform : Platform :=
  {| writableLocation := sample_locations;
     file_contents := λ path,
       if bool_decide (path =
            QStringLiteral "/home/u/.local/state/DankMaterialShell/session.json")
       then Some light_session_bytes else None;
     rootObjects_size := 1;
     exec_result := 0 |}.

(** ** Occurrences *)

(** Whether [before] occurs somewhere in [s]. *)
Fixpoint contains (before s : QString) : bool :=
  starts_with before s ||
  match s with
  | [] => false
  | _ :: s' => contains before s'
  end.

(** No session file, and a UI description that loads. *)
Definition absent_platform : Platform :=
  {| writableLocation := sample_locations;
     file_contents := λ _, None;
     rootObjects_size := 1;
     exec_result := 0 |}.

(** A data location without the directory name that is replaced, and one
    with it twice. *)
Definition flat_platform : Platform :=
  {| writableLocation := λ _, QStringLiteral "/data";
     file_contents := λ _, None;
     rootObjects_size := 1;
     exec_result := 0 |}.

Definition nested_platform : Platform :=
  {| writableLocation := λ _, QStringLiteral "/share/u/.local/share";
     file_contents := λ _, None;
     rootObjects_size := 1;
     exec_result := 0 |}.

(** A conversion to run [messageHandler] with: the text up to its first
    zero code unit, a code unit below 256 as the byte of that value and
    any other as a question mark. *)
Fixpoint print_latin1 (s : QString) : QByteArray :=
  match s with
  | [] => []
  | c :: s' =>
      if (c =? 0)%N then []
      else default "?"%byte (Byte.of_N c) :: print_latin1 s'
  end.

End Main.

Module RunnerProps.
Import ProcessRunner.

Section Proofs.

Variable fromUtf8 : QByteArray → QString.

Local Abbreviation exec := (exec fromUtf8).
Local Abbreviation step := (step fromUtf8).
Local Abbreviation inv := (inv fromUtf8).
Local Abbreviation proc_inv := (proc_inv fromUtf8).

(** *** Traces *)

Lemma calls_app (t1 t2 : list Event) : calls (t1 ++ t2) = calls t1 ++ calls t2.
Proof.
  induction t1 as [|e t1 IH]; [done|].
  destruct e; simpl; by rewrite ?IH.
Qed.

Lemma stdout_written_app p (t1 t2 : list Event) :
  stdout_written p (t1 ++ t2) = stdout_written p t1 ++ stdout_written p t2.
Proof.
  induction t1 as [|e t1 IH]; [done|].
  destruct e; simpl; try done.
  case_decide; by rewrite IH, ?app_assoc.
Qed.

Lemma exits_app p (t1 t2 : list Event) :
  exits p (t1 ++ t2) = exits p t1 ++ exits p t2.
Proof.
  induction t1 as [|e t1 IH]; [done|].
  destruct e; simpl; try done.
  case_decide; by rewrite IH.
Qed.

Lemma failed_app p (t1 t2 : list Event) :
  failed p (t1 ++ t2) = failed p t1 || failed p t2.
Proof.
  induction t1 as [|e t1 IH]; [done|].
  destruct e; simpl; try done.
  by rewrite IH, orb_assoc.
Qed.

Lemma exec_snoc w (tr : list Event) e :
  exec w (tr ++ [e]) = exec w tr ≫= λ w', step w' e.
Proof.
  revert w. induction tr as [|e' tr IH]; intros w; simpl.
  - by destruct (step w e).
  - destruct (step w e'); [apply IH | done].
Qed.

Lemma exec_app w (t1 t2 : list Event) :
  exec w (t1 ++ t2) = exec w t1 ≫= λ w', exec w' t2.
Proof.
  revert w. induction t1 as [|e t1 IH]; intros w; simpl; [done|].
  destruct (step w e); [apply IH | done].
Qed.

(** *** The log of emissions *)

Lemma emitted_for_snoc p w w' o s :
  emitted w' = emitted w ++ [(o, s)] →
  emitted_for p w' = emitted_for p w ++ (if decide (o = p) then [s] else []).
Proof.
  intros He. unfold emitted_for. rewrite He, filter_app, fmap_app. f_equal.
  rewrite filter_cons, filter_nil. simpl. by case_decide.
Qed.

Lemma emitted_for_heap p h w :
  emitted_for p (set_heap h w) = emitted_for p w.
Proof. done. Qed.

(** *** What [run] and a completion do to the world *)

Lemma run_eq requestId args w :
  run requestId args w =
  Some (tt, mkWorld
    (<[next_ptr w := mkQProcess (QStringLiteral "muralis") args Starting [] []
                       [mkClosure (next_ptr w) requestId] false]> (heap w))
    (S (next_ptr w))
    (spawned w ++ [mkSpawn (next_ptr w) (QStringLiteral "muralis") args])
    (emitted w)).
Proof.
  unfold run, mbind, M_bind, new_QProcess, connect_finished, with_proc,
    QProcess_start; simpl.
  rewrite lookup_insert_eq; simpl. rewrite lookup_insert_eq; simpl.
  by rewrite !insert_insert_eq.
Qed.

Lemma exited_eq w p q requestId exitCode st :
  heap w !! p = Some q → state q = Running →
  finishedSlots q = [mkClosure p requestId] →
  step w (OsExited p exitCode st) =
  Some (mkWorld
    (<[p := mkQProcess (program q) (arguments q) NotRunning []
              (stderrBuffer q) [mkClosure p requestId] true]> (heap w))
    (next_ptr w) (spawned w)
    (emitted w ++ [(p, mkFinished requestId (fromUtf8 (stdoutBuffer q)) exitCode)])).
Proof.
  intros Hq Hs Hc.
  unfold step, enabled, proc_in. rewrite Hq, Hs; simpl.
  unfold mbind, M_bind, with_proc. rewrite Hq; simpl. rewrite Hc; simpl.
  unfold lambda_finished, readAllStandardOutput, emit_finished, deleteLater,
    mbind, M_bind, with_proc; simpl.
  rewrite lookup_insert_eq; simpl. rewrite lookup_insert_eq; simpl.
  rewrite !insert_insert_eq. by rewrite Hc.
Qed.

Lemma enabled_target w e p :
  enabled w e = true → target e = Some p → is_Some (heap w !! p).
Proof.
  destruct e; simpl; try done; unfold proc_in; intros He [= <-];
    destruct (heap w !! _); by eauto.
Qed.

Lemma trace_other p p0 (tr : list Event) e :
  target e = Some p0 → p ≠ p0 →
  calls (tr ++ [e]) = calls tr ∧
  stdout_written p (tr ++ [e]) = stdout_written p tr ∧
  exits p (tr ++ [e]) = exits p tr ∧
  failed p (tr ++ [e]) = failed p tr.
Proof.
  intros Ht Hne.
  rewrite calls_app, stdout_written_app, exits_app, failed_app.
  destruct e; simplify_eq/=; repeat case_decide; try case_bool_decide;
    simplify_eq; by rewrite ?app_nil_r, ?orb_false_r.
Qed.

(** *** One step keeps the invariant *)

Lemma inv_allocated tr w p :
  inv tr w → is_Some (heap w !! p) →
  ∃ requestId args, calls tr !! p = Some (requestId, args).
Proof.
  intros (_ & _ & Hun & _) [q Hq].
  destruct (calls tr !! p) as [[r a]|] eqn:Hc; [by eauto|].
  apply lookup_ge_None in Hc. destruct (Hun p Hc) as [Hn _]. congruence.
Qed.

(** An event about [p0] leaves every other object and its signals alone. *)
Lemma step_frame tr w e w' p0 :
  inv tr w → step w e = Some w' → target e = Some p0 →
  next_ptr w' = next_ptr w ∧ spawned w' = spawned w ∧
  ∀ p, p ≠ p0 →
    heap w' !! p = heap w !! p ∧ emitted_for p w' = emitted_for p w.
Proof.
  intros Hinv Hstep Ht.
  assert (He : enabled w e = true).
  { unfold step in Hstep. by destruct (enabled w e). }
  destruct (enabled_target _ _ _ He Ht) as [q Hq].
  destruct (inv_allocated _ _ _ Hinv (mk_is_Some _ _ Hq)) as (r & a & Hc).
  destruct Hinv as (_ & _ & _ & Hall). specialize (Hall _ _ _ Hc).
  destruct Hall as [_ Hp]. rewrite Hq in Hp. destruct Hp as (Hslots & _).
  unfold step in Hstep; rewrite He in Hstep.
  destruct e; try done; injection Ht as ->; simpl in He, Hstep.
  1-4: unfold with_proc in Hstep; rewrite Hq in Hstep; simplify_eq/=;
       split_and!; try done; intros p' Hne; by rewrite lookup_insert_ne.
  - unfold proc_in in He. rewrite Hq in He. apply bool_decide_eq_true in He.
    pose proof (exited_eq _ _ _ _ exitCode st Hq He Hslots) as Hex.
    unfold step in Hex; simpl in Hex. unfold proc_in in Hex.
    rewrite Hq, bool_decide_eq_true_2 in Hex by done.
    rewrite Hex in Hstep. simplify_eq.
    split_and!; try done. intros p' Hne. simpl. rewrite lookup_insert_ne by done.
    split; [done|]. erewrite emitted_for_snoc by done.
    rewrite decide_False by done. by rewrite app_nil_r.
  - simplify_eq/=.
    split_and!; try done. intros p' Hne. by rewrite lookup_delete_ne.
Qed.

Lemma trace_call p (tr : list Event) requestId args :
  calls (tr ++ [CallRun requestId args]) = calls tr ++ [(requestId, args)] ∧
  stdout_written p (tr ++ [CallRun requestId args]) = stdout_written p tr ∧
  exits p (tr ++ [CallRun requestId args]) = exits p tr ∧
  failed p (tr ++ [CallRun requestId args]) = failed p tr.
Proof.
  rewrite calls_app, stdout_written_app, exits_app, failed_app; simpl.
  by rewrite !app_nil_r, orb_false_r.
Qed.

Lemma inv_step_call tr w requestId args w' :
  inv tr w → step w (CallRun requestId args) = Some w' →
  inv (tr ++ [CallRun requestId args]) w'.
Proof.
  intros (Hnext & Hsp & Hun & Hall) Hstep.
  unfold step in Hstep; simpl in Hstep. rewrite run_eq in Hstep.
  simplify_eq/=.
  pose proof (λ p, trace_call p tr requestId args) as Htr.
  destruct (Htr 0) as [Hcalls _].
  unfold inv. rewrite Hcalls, length_app; simpl. split_and!.
  - lia.
  - rewrite imap_app, Hsp; simpl. by rewrite Nat.add_0_r, Hnext.
  - intros p Hp. destruct (Hun p ltac:(lia)) as (H1 & H2 & H3 & H4 & H5).
    unfold unused_inv; simpl. destruct (Htr p) as (_ & -> & -> & ->).
    rewrite lookup_insert_ne by lia.
    by split_and!.
  - intros p r a Hc. destruct (Htr p) as (_ & Ho & He & Hf).
    unfold proc_inv, own_signals. rewrite Ho, He, Hf; clear Ho He Hf.
    destruct (decide (p = length (calls tr))) as [->|Hne].
    + rewrite list_lookup_middle in Hc by done. simplify_eq.
      destruct (Hun (length (calls tr)) ltac:(lia)) as (H1 & H2 & H3 & H4 & H5).
      simpl. rewrite Hnext, lookup_insert_eq; simpl.
      rewrite H4; simpl. by split_and!.
    + assert (Hlt : p < length (calls tr)).
      { apply lookup_lt_Some in Hc. rewrite length_app in Hc; simpl in Hc. lia. }
      rewrite lookup_app_l in Hc by done.
      specialize (Hall _ _ _ Hc). unfold proc_inv, own_signals in Hall.
      simpl. rewrite lookup_insert_ne by lia. exact Hall.
Qed.

Lemma calls_target (tr : list Event) e p0 :
  target e = Some p0 → calls (tr ++ [e]) = calls tr.
Proof.
  intros Ht. rewrite calls_app. destruct e; simplify_eq/=; by rewrite app_nil_r.
Qed.

(** The object an event is about, after the event. *)
Lemma inv_step_self tr w e w' p0 requestId args :
  inv tr w → step w e = Some w' → target e = Some p0 →
  calls tr !! p0 = Some (requestId, args) →
  proc_inv (tr ++ [e]) w' p0 requestId args.
Proof.
  intros Hinv Hstep Ht Hc.
  assert (He : enabled w e = true).
  { unfold step in Hstep. by destruct (enabled w e). }
  destruct (enabled_target _ _ _ He Ht) as [q Hq].
  destruct Hinv as (_ & _ & _ & Hall). specialize (Hall _ _ _ Hc).
  destruct Hall as [Hem Hp]. rewrite Hq in Hp.
  destruct Hp as (Hslots & Hprog & Hargs & Hst).
  unfold proc_inv, own_signals in *.
  rewrite stdout_written_app, exits_app, failed_app.
  destruct e; try done; injection Ht as ->; simpl in He.
  - (* started *)
    unfold proc_in in He; rewrite Hq in He; apply bool_decide_eq_true in He.
    rewrite He in Hst. destruct Hst as (H1 & H2 & H3 & H4 & H5).
    unfold step in Hstep; simpl in Hstep. unfold proc_in, with_proc in Hstep.
    rewrite Hq, bool_decide_eq_true_2 in Hstep by done. simplify_eq/=.
    rewrite lookup_insert_eq; simpl. rewrite !app_nil_r, orb_false_r.
    rewrite emitted_for_heap. split_and!; try done. congruence.
  - (* failed to start *)
    unfold proc_in in He; rewrite Hq in He; apply bool_decide_eq_true in He.
    rewrite He in Hst. destruct Hst as (H1 & H2 & H3 & H4 & H5).
    unfold step in Hstep; simpl in Hstep. unfold proc_in, with_proc in Hstep.
    rewrite Hq, bool_decide_eq_true_2 in Hstep by done. simplify_eq/=.
    rewrite lookup_insert_eq; simpl. rewrite !app_nil_r.
    rewrite emitted_for_heap, H4, H5, bool_decide_eq_true_2 by done.
    by split_and!.
  - (* standard output *)
    unfold proc_in in He; rewrite Hq in He; apply bool_decide_eq_true in He.
    rewrite He in Hst. destruct Hst as (H1 & H2 & H3 & H4).
    unfold step in Hstep; simpl in Hstep. unfold proc_in, with_proc in Hstep.
    rewrite Hq, bool_decide_eq_true_2 in Hstep by done. simplify_eq/=.
    rewrite lookup_insert_eq; simpl. rewrite decide_True by done.
    rewrite !app_nil_r, orb_false_r, emitted_for_heap, He, H2 in *.
    split_and!; try done. by rewrite H1.
  - (* standard error *)
    unfold proc_in in He; rewrite Hq in He; apply bool_decide_eq_true in He.
    rewrite He in Hst. destruct Hst as (H1 & H2 & H3 & H4).
    unfold step in Hstep; simpl in Hstep. unfold proc_in, with_proc in Hstep.
    rewrite Hq, bool_decide_eq_true_2 in Hstep by done. simplify_eq/=.
    rewrite lookup_insert_eq; simpl.
    rewrite !app_nil_r, orb_false_r, emitted_for_heap, He.
    by split_and!.
  - (* exited *)
    unfold proc_in in He; rewrite Hq in He; apply bool_decide_eq_true in He.
    rewrite He in Hst. destruct Hst as (H1 & H2 & H3 & H4).
    rewrite (exited_eq _ _ _ _ exitCode st Hq He Hslots) in Hstep.
    simplify_eq/=. rewrite lookup_insert_eq; simpl.
    rewrite decide_True by done. rewrite !app_nil_r, orb_false_r.
    erewrite emitted_for_snoc by done. rewrite decide_True by done.
    rewrite Hem, H2, H1; simpl. by split_and!.
  - (* deferred delete *)
    rewrite Hq in He.
    unfold step in Hstep; simpl in Hstep. rewrite Hq, He in Hstep.
    simplify_eq/=. rewrite lookup_delete_eq, emitted_for_heap.
    rewrite !app_nil_r, orb_false_r. split; [done|].
    rewrite He in Hst. destruct (state q); try (by destruct Hst as (? & ? & ? & ? & ?));
      try (by destruct Hst as (? & ? & ? & ?)). done.
Qed.

Lemma inv_step_target tr w e w' p0 :
  inv tr w → step w e = Some w' → target e = Some p0 →
  inv (tr ++ [e]) w'.
Proof.
  intros Hinv Hstep Ht.
  assert (He : enabled w e = true).
  { unfold step in Hstep. by destruct (enabled w e). }
  destruct (inv_allocated _ _ _ Hinv (enabled_target w e p0 He Ht))
    as (r0 & a0 & Hc0).
  destruct (step_frame _ _ _ _ _ Hinv Hstep Ht) as (Hn & Hs & Hframe).
  pose proof (inv_step_self _ _ _ _ _ _ _ Hinv Hstep Ht Hc0) as Hself.
  destruct Hinv as (Hnext & Hsp & Hun & Hall).
  unfold inv. rewrite (calls_target _ _ _ Ht). split_and!.
  - congruence.
  - congruence.
  - intros p Hp.
    assert (Hne : p ≠ p0) by (apply lookup_lt_Some in Hc0; lia).
    destruct (trace_other p p0 tr e Ht Hne) as (_ & Ho & Hx & Hf).
    destruct (Hframe p Hne) as [Hh Hem].
    unfold unused_inv. rewrite Ho, Hx, Hf, Hh, Hem. by apply Hun.
  - intros p r a Hc. destruct (decide (p = p0)) as [->|Hne].
    + by simplify_eq.
    + destruct (trace_other p p0 tr e Ht Hne) as (_ & Ho & Hx & Hf).
      destruct (Hframe p Hne) as [Hh Hem].
      unfold proc_inv, own_signals. rewrite Ho, Hx, Hf, Hh, Hem.
      by apply Hall.
Qed.

Lemma inv_step tr w e w' :
  inv tr w → step w e = Some w' → inv (tr ++ [e]) w'.
Proof.
  intros Hinv Hstep. destruct (target e) as [p0|] eqn:Ht.
  - by apply (inv_step_target tr w e w' p0).
  - destruct e; try done. by apply (inv_step_call tr w).
Qed.

Lemma inv_init : inv [] init.
Proof.
  unfold inv; simpl. by split_and!.
Qed.

(** Every world the loop can be in satisfies the invariant. *)
Lemma exec_inv tr w : exec init tr = Some w → inv tr w.
Proof.
  revert w. induction tr as [|e tr IH] using rev_ind; intros w Hex.
  - simplify_eq/=. apply inv_init.
  - rewrite exec_snoc in Hex.
    destruct (exec init tr) as [w0|] eqn:H0; [|done]. simpl in Hex.
    eapply inv_step; eauto.
Qed.

(** *** Consequences of the invariant *)

Lemma elem_emitted_for p s w : (p, s) ∈ emitted w ↔ s ∈ emitted_for p w.
Proof.
  unfold emitted_for. rewrite list_elem_of_fmap. split.
  - intros H. exists (p, s). split; [done|]. by apply list_elem_of_filter.
  - intros ([p' s'] & -> & H). apply list_elem_of_filter in H as [Hp H].
    simpl in *. by subst.
Qed.

Lemma inv_exits tr w p : inv tr w → length (exits p tr) ≤ 1.
Proof.
  intros (_ & _ & Hun & Hall).
  destruct (calls tr !! p) as [[r a]|] eqn:Hc.
  - destruct (Hall _ _ _ Hc) as [_ Hp].
    destruct (heap w !! p) as [q|]; [|lia].
    destruct Hp as (_ & _ & _ & Hst).
    destruct (state q), (deferredDelete q); simpl in Hst;
      destruct_and?;
      first [ lia
            | match goal with H : exits _ _ = [] |- _ => rewrite H; simpl; lia end ].
  - apply lookup_ge_None in Hc. destruct (Hun p Hc) as (_ & _ & _ & -> & _).
    simpl; lia.
Qed.

Lemma inv_failed tr w p : inv tr w → failed p tr = true → exits p tr = [].
Proof.
  intros (_ & _ & Hun & Hall) Hf.
  destruct (calls tr !! p) as [[r a]|] eqn:Hc.
  - destruct (Hall _ _ _ Hc) as [_ Hp].
    destruct (heap w !! p) as [q|]; [|destruct Hp; congruence].
    destruct Hp as (_ & _ & _ & Hst).
    destruct (state q), (deferredDelete q); simpl in Hst;
      by intuition congruence.
  - apply lookup_ge_None in Hc. by destruct (Hun p Hc) as (_ & _ & _ & -> & _).
Qed.

Lemma inv_emitted_length tr w p :
  inv tr w → length (emitted_for p w) = length (exits p tr).
Proof.
  intros (_ & _ & Hun & Hall).
  destruct (calls tr !! p) as [[r a]|] eqn:Hc.
  - destruct (Hall _ _ _ Hc) as [-> _]. unfold own_signals. by rewrite length_fmap.
  - apply lookup_ge_None in Hc.
    by destruct (Hun p Hc) as (_ & -> & _ & -> & _).
Qed.

(** A signal in the log was emitted by the closure of an allocated
    object, after the one exit of its child, with that closure's data. *)
Lemma emitted_own tr w p s :
  exec init tr = Some w → (p, s) ∈ emitted w →
  ∃ requestId args,
    calls tr !! p = Some (requestId, args) ∧
    exits p tr = [sig_exitCode s] ∧
    s = mkFinished requestId (fromUtf8 (stdout_written p tr)) (sig_exitCode s).
Proof.
  intros Hex Hin. apply exec_inv in Hex.
  pose proof (inv_exits _ _ p Hex) as Hle.
  apply elem_emitted_for in Hin.
  destruct Hex as (_ & _ & Hun & Hall).
  destruct (calls tr !! p) as [[r a]|] eqn:Hc.
  - exists r, a. split; [done|].
    destruct (Hall _ _ _ Hc) as [Hem _]. rewrite Hem in Hin.
    unfold own_signals in Hin. apply list_elem_of_fmap in Hin as (c & -> & Hin).
    simpl. split; [|done].
    destruct (exits p tr) as [|c0 [|c1 l]]; simpl in Hle; try lia.
    + by apply elem_of_nil in Hin.
    + apply list_elem_of_singleton in Hin. by subst.
  - apply lookup_ge_None in Hc. destruct (Hun p Hc) as (_ & Hem & _).
    rewrite Hem in Hin. by apply elem_of_nil in Hin.
Qed.

(** The spawn requests for object [p] among those of a sequence of calls. *)
Lemma filter_spawns p (l : list (QString * QStringList)) :
  length (filter (λ s, spawn_proc s = p)
            (imap (λ i c, mkSpawn i (QStringLiteral "muralis") c.2) l)) =
  if decide (p < length l) then 1 else 0.
Proof.
  induction l as [|c l IH] using rev_ind; [done|].
  rewrite imap_app, filter_app, !length_app, IH; simpl.
  rewrite filter_cons, filter_nil; simpl. rewrite Nat.add_0_r.
  repeat case_decide; simpl; lia.
Qed.

(** Handling an event the environment can deliver never runs into
    undefined behaviour. *)
Lemma step_safe tr w e :
  inv tr w → enabled w e = true → is_Some (step w e).
Proof.
  intros Hinv He. unfold step. rewrite He.
  destruct e; simpl in *.
  - rewrite run_eq. by eexists.
  - unfold proc_in, with_proc in *. destruct (heap w !! p); [by eexists|done].
  - unfold proc_in, with_proc in *. destruct (heap w !! p); [by eexists|done].
  - unfold proc_in, with_proc in *. destruct (heap w !! p); [by eexists|done].
  - unfold proc_in, with_proc in *. destruct (heap w !! p); [by eexists|done].
  - unfold proc_in in He. destruct (heap w !! p) as [q|] eqn:Hq; [|done].
    apply bool_decide_eq_true in He.
    destruct (inv_allocated _ _ _ Hinv (mk_is_Some _ _ Hq)) as (r & a & Hc).
    destruct Hinv as (_ & _ & _ & Hall). destruct (Hall _ _ _ Hc) as [_ Hp].
    rewrite Hq in Hp. destruct Hp as (Hslots & _).
    pose proof (exited_eq _ _ _ _ exitCode st Hq He Hslots) as Hex.
    unfold step in Hex; simpl in Hex. unfold proc_in in Hex.
    rewrite Hq, bool_decide_eq_true_2 in Hex by done.
    rewrite Hex. by eexists.
  - by eexists.
Qed.

Lemma inv_running tr w p :
  inv tr w → proc_in Running p w = true →
  exits p tr = [] ∧ ∃ requestId args q,
    calls tr !! p = Some (requestId, args) ∧ heap w !! p = Some q ∧
    state q = Running ∧ finishedSlots q = [mkClosure p requestId].
Proof.
  intros Hinv Hr. unfold proc_in in Hr.
  destruct (heap w !! p) as [q|] eqn:Hq; [|done].
  apply bool_decide_eq_true in Hr.
  destruct (inv_allocated _ _ _ Hinv (mk_is_Some _ _ Hq)) as (r & a & Hc).
  destruct Hinv as (_ & _ & _ & Hall). destruct (Hall _ _ _ Hc) as [_ Hp].
  rewrite Hq, Hr in Hp. destruct Hp as (Hslots & _ & _ & _ & Hx & _).
  split; [done|]. by exists r, a, q.
Qed.

Lemma failed_no_signal tr w p :
  exec init tr = Some w → failed p tr = true → emitted_for p w = [].
Proof.
  intros Hex Hf. apply exec_inv in Hex.
  apply length_zero_iff_nil.
  by rewrite (inv_emitted_length _ _ _ Hex), (inv_failed _ _ _ Hex Hf).
Qed.

(** ** The claims about the process bridge *)

(** C1: a [finished] signal emitted for a call of [run] (by the closure
    created in call number [p]) carries as its first argument the request
    identifier that call was given. *)
Theorem finished_carries_request_id tr w p s :
  exec init tr = Some w → (p, s) ∈ emitted w →
  ∃ args, calls tr !! p = Some (sig_requestId s, args).
Proof.
  intros Hex Hin.
  destruct (emitted_own _ _ _ _ Hex Hin) as (r & a & Hc & _ & ->).
  by exists a.
Qed.

(** C2, as the code has it: the signals emitted for a call are as many as
    the exits reported for its child, which is at most one; a child that
    could not be executed gets none; a running child that exits gets its
    signal in that turn of the loop; and [run] itself emits nothing. *)
Theorem finished_once_per_exit tr w p :
  exec init tr = Some w →
  length (emitted_for p w) = length (exits p tr) ∧
  length (exits p tr) ≤ 1 ∧
  (failed p tr = true → emitted_for p w = []) ∧
  (∀ exitCode st, proc_in Running p w = true →
     ∃ w', step w (OsExited p exitCode st) = Some w' ∧
           length (emitted_for p w') = 1) ∧
  (∀ requestId args w0 w1,
     run requestId args w0 = Some (tt, w1) → emitted w1 = emitted w0).
Proof.
  intros Hex. pose proof (exec_inv _ _ Hex) as Hinv. split_and!.
  - by apply inv_emitted_length.
  - by eapply inv_exits.
  - by apply failed_no_signal.
  - intros c st Hr.
    destruct (inv_running _ _ _ Hinv Hr) as (Hx & r & a & q & Hc & Hq & Hs & Hsl).
    eexists. split; [by apply (exited_eq _ _ _ _ c st Hq Hs Hsl)|].
    erewrite emitted_for_snoc by done. rewrite decide_True by done.
    rewrite length_app; simpl.
    replace (emitted_for p _) with (emitted_for p w) by done.
    rewrite (inv_emitted_length _ _ _ Hinv), Hx. done.
  - intros r a w0 w1 Hrun. rewrite run_eq in Hrun. by simplify_eq.
Qed.

(** C3: at most one [finished] signal is ever emitted for a launched
    process, and once it has been emitted the exit of that process cannot
    be delivered again, so that its completion callback is not called a
    second time. *)
Theorem finished_at_most_once tr w p :
  exec init tr = Some w →
  length (emitted_for p w) ≤ 1 ∧
  (emitted_for p w ≠ [] →
   ∀ exitCode st, enabled w (OsExited p exitCode st) = false).
Proof.
  intros Hex. pose proof (exec_inv _ _ Hex) as Hinv. split.
  - rewrite (inv_emitted_length _ _ _ Hinv). by eapply inv_exits.
  - intros Hne c st. simpl.
    destruct (proc_in Running p w) eqn:Hr; [|done].
    destruct (inv_running _ _ _ Hinv Hr) as (Hx & _).
    pose proof (inv_emitted_length _ _ p Hinv) as Hlen.
    rewrite Hx in Hlen. by apply length_zero_iff_nil in Hlen.
Qed.

(** C4: the spawn requests made are, call by call and in order, for the
    program named muralis with the argument list of the call, unchanged. *)
Theorem launches_muralis_with_args tr w :
  exec init tr = Some w →
  spawned w = imap (λ p c, mkSpawn p (QStringLiteral "muralis") c.2) (calls tr).
Proof. intros Hex. by destruct (exec_inv _ _ Hex) as (_ & Hsp & _). Qed.

(** C5: the second argument of an emitted [finished] is the decoding of
    all the bytes the child wrote to its standard output, whatever it
    wrote to its standard error, and the third is the exit code reported
    for the child. *)
Theorem finished_reports_stdout_and_exit_code tr w p s :
  exec init tr = Some w → (p, s) ∈ emitted w →
  sig_stdoutData s = fromUtf8 (stdout_written p tr) ∧
  exits p tr = [sig_exitCode s].
Proof.
  intros Hex Hin.
  destruct (emitted_own _ _ _ _ Hex Hin) as (r & a & _ & Hx & Hs).
  split; [by rewrite Hs|done].
Qed.

(** C6: when the child of [p] cannot be executed, handling that report
    emits no signal and spawns nothing; afterwards no signal is ever
    emitted for [p] and [p] is never spawned a second time; and [run]
    returns normally in every world. *)
Theorem launch_failure_not_surfaced tr w p w' :
  exec init tr = Some w → step w (OsFailedToStart p) = Some w' →
  emitted w' = emitted w ∧ spawned w' = spawned w ∧
  (∀ tr' w'', exec w' tr' = Some w'' →
     emitted_for p w'' = [] ∧
     length (filter (λ s, spawn_proc s = p) (spawned w'')) = 1) ∧
  (∀ requestId args w0, is_Some (run requestId args w0)).
Proof.
  intros Hex Hstep. pose proof (exec_inv _ _ Hex) as Hinv.
  assert (He : enabled w (OsFailedToStart p) = true).
  { unfold step in Hstep. by destruct (enabled w _). }
  destruct (inv_allocated _ _ _ Hinv
              (enabled_target w (OsFailedToStart p) p He eq_refl))
    as (r & a & Hc).
  split_and!.
  - unfold step in Hstep. rewrite He in Hstep. simpl in Hstep.
    unfold with_proc in Hstep. destruct (heap w !! p); by simplify_eq/=.
  - unfold step in Hstep. rewrite He in Hstep. simpl in Hstep.
    unfold with_proc in Hstep. destruct (heap w !! p); by simplify_eq/=.
  - intros tr' w'' Hex'.
    assert (Hall : exec init (tr ++ OsFailedToStart p :: tr') = Some w'').
    { rewrite exec_app, Hex; simpl. by rewrite Hstep. }
    split.
    + apply (failed_no_signal _ _ _ Hall).
      rewrite failed_app; simpl. rewrite bool_decide_eq_true_2 by done.
      by rewrite orb_true_r.
    + destruct (exec_inv _ _ Hall) as (_ & -> & _).
      rewrite filter_spawns, decide_True; [done|].
      apply lookup_lt_Some in Hc. rewrite calls_app, length_app. lia.
  - intros r' a' w0. rewrite run_eq. by eexists.
Qed.

(** C10: with any number of launches under way, the signals emitted for
    call number [p] are made of that call's request identifier and of its
    own child's output and exit code; the object of the call has the
    closure of the call as its only completion callback; and neither an
    event about another object nor another call of [run] touches the
    object or the signals of [p]. *)
Theorem launches_are_isolated tr w p requestId args :
  exec init tr = Some w → calls tr !! p = Some (requestId, args) →
  emitted_for p w =
    (λ c, mkFinished requestId (fromUtf8 (stdout_written p tr)) c) <$> exits p tr ∧
  (∀ q, heap w !! p = Some q → finishedSlots q = [mkClosure p requestId]) ∧
  (∀ e p0 w', target e = Some p0 → p0 ≠ p → step w e = Some w' →
     heap w' !! p = heap w !! p ∧ emitted_for p w' = emitted_for p w) ∧
  (∀ requestId' args' w', step w (CallRun requestId' args') = Some w' →
     heap w !! next_ptr w = None ∧
     heap w' !! p = heap w !! p ∧ emitted_for p w' = emitted_for p w).
Proof.
  intros Hex Hc. pose proof (exec_inv _ _ Hex) as Hinv.
  pose proof Hinv as (Hnext & _ & Hun & Hall).
  destruct (Hall _ _ _ Hc) as [Hem Hp]. split_and!.
  - exact Hem.
  - intros q Hq. rewrite Hq in Hp. by destruct Hp.
  - intros e p0 w' Ht Hne Hstep.
    destruct (step_frame _ _ _ _ _ Hinv Hstep Ht) as (_ & _ & Hfr).
    by apply Hfr.
  - intros r' a' w' Hstep. unfold step in Hstep; simpl in Hstep.
    rewrite run_eq in Hstep. simplify_eq/=.
    destruct (Hun (next_ptr w) ltac:(lia)) as (Hnone & _).
    apply lookup_lt_Some in Hc.
    split_and!; [done| by rewrite lookup_insert_ne by lia | done].
Qed.

(** ** Further properties of the process bridge *)

(** *** The order of the signals *)

Lemma exit_order_app (t1 t2 : list Event) :
  exit_order (t1 ++ t2) = exit_order t1 ++ exit_order t2.
Proof.
  induction t1 as [|e t1 IH]; [done|].
  destruct e; simpl; by rewrite ?IH.
Qed.

Lemma step_emitted_order tr w e w' :
  inv tr w → step w e = Some w' →
  (emitted w').*1 = (emitted w).*1 ++ exit_order [e].
Proof.
  intros Hinv Hstep.
  assert (He : enabled w e = true).
  { unfold step in Hstep. by destruct (enabled w e). }
  destruct e; simpl in He.
  - unfold step in Hstep; simpl in Hstep. rewrite run_eq in Hstep.
    simplify_eq/=. by rewrite app_nil_r.
  - unfold step in Hstep; simpl in Hstep. rewrite He in Hstep.
    unfold with_proc in Hstep. destruct (heap w !! p); simplify_eq/=.
    by rewrite app_nil_r.
  - unfold step in Hstep; simpl in Hstep. rewrite He in Hstep.
    unfold with_proc in Hstep. destruct (heap w !! p); simplify_eq/=.
    by rewrite app_nil_r.
  - unfold step in Hstep; simpl in Hstep. rewrite He in Hstep.
    unfold with_proc in Hstep. destruct (heap w !! p); simplify_eq/=.
    by rewrite app_nil_r.
  - unfold step in Hstep; simpl in Hstep. rewrite He in Hstep.
    unfold with_proc in Hstep. destruct (heap w !! p); simplify_eq/=.
    by rewrite app_nil_r.
  - destruct (inv_running _ _ _ Hinv He) as (_ & r & a & q & _ & Hq & Hs & Hsl).
    rewrite (exited_eq _ _ _ _ exitCode st Hq Hs Hsl) in Hstep.
    simplify_eq/=. by rewrite fmap_app.
  - unfold step in Hstep; simpl in Hstep. rewrite He in Hstep.
    simplify_eq/=. by rewrite app_nil_r.
Qed.

(** X1: the [finished] signals are emitted in the order in which the
    children exit, whatever the order of the calls of [run] was. *)
Theorem signals_in_exit_order tr w :
  exec init tr = Some w → (emitted w).*1 = exit_order tr.
Proof.
  revert w. induction tr as [|e tr IH] using rev_ind; intros w Hex.
  - by simplify_eq/=.
  - rewrite exec_snoc in Hex.
    destruct (exec init tr) as [w0|] eqn:H0; [|done]. simpl in Hex.
    rewrite (step_emitted_order tr w0 e w (exec_inv _ _ H0) Hex).
    by rewrite exit_order_app, (IH w0).
Qed.

(** X2: in a world the loop can reach, the handling of an event that can
    be delivered never uses a pointer to a deleted object: the closure
    finds its [proc] alive when it reads its output and when it schedules
    its deletion. *)
Theorem no_use_after_delete tr w e :
  exec init tr = Some w → enabled w e = true →
  ∃ w', step w e = Some w' ∧ exec init (tr ++ [e]) = Some w'.
Proof.
  intros Hex He.
  destruct (step_safe tr w e (exec_inv _ _ Hex) He) as [w' Hstep].
  exists w'. split; [done|]. rewrite exec_snoc, Hex. done.
Qed.

(** *** The life of a process object *)

(** X3: the object of a call is scheduled for deletion, or already
    deleted, exactly when the [finished] signal of the call has been
    emitted: no object is released before its completion was signalled,
    and every signalled completion releases its object. *)
Theorem released_iff_signalled tr w p requestId args :
  exec init tr = Some w → calls tr !! p = Some (requestId, args) →
  (heap w !! p = None ∨ ∃ q, heap w !! p = Some q ∧ deferredDelete q = true) ↔
  length (emitted_for p w) = 1.
Proof.
  intros Hex Hc. pose proof (exec_inv _ _ Hex) as Hinv.
  rewrite (inv_emitted_length _ _ p Hinv).
  destruct Hinv as (_ & _ & _ & Hall). destruct (Hall _ _ _ Hc) as [_ Hp].
  destruct (heap w !! p) as [q|] eqn:Hq.
  - destruct Hp as (_ & _ & _ & Hst). split.
    + intros [?|(q' & [= <-] & Hdl)]; [done|].
      rewrite Hdl in Hst. destruct (state q); by destruct_and?.
    + intros Hlen. right. exists q. split; [done|].
      destruct (state q), (deferredDelete q); destruct_and?; try done;
        match goal with H : exits _ _ = [] |- _ => by rewrite H in Hlen end.
  - destruct Hp as [Hlen _]. split; [done|by left].
Qed.

(** X4: the object of a call whose child could not be executed is never
    released: at every later time it is still on the heap, not running,
    and not scheduled for deletion. *)
Theorem failed_launch_never_released tr w p tr' w' :
  exec init tr = Some w → failed p tr = true → exec w tr' = Some w' →
  ∃ q, heap w' !! p = Some q ∧ state q = NotRunning ∧
       deferredDelete q = false ∧ enabled w' (DeferredDelete p) = false.
Proof.
  intros Hex Hf Hex'.
  assert (Hall : exec init (tr ++ tr') = Some w').
  { by rewrite exec_app, Hex. }
  assert (Hf' : failed p (tr ++ tr') = true).
  { by rewrite failed_app, Hf. }
  destruct (exec_inv _ _ Hall) as (_ & _ & Hun & Hinv).
  destruct (calls (tr ++ tr') !! p) as [[r a]|] eqn:Hc.
  - destruct (Hinv _ _ _ Hc) as [_ Hp]. simpl.
    destruct (heap w' !! p) as [q|]; [|destruct Hp; congruence].
    destruct Hp as (_ & _ & _ & Hst). exists q.
    destruct (state q), (deferredDelete q); destruct_and?;
      by first [congruence | split_and!].
  - apply lookup_ge_None in Hc. destruct (Hun p Hc) as (_ & _ & _ & _ & ?).
    congruence.
Qed.

(** *** The exit status *)

Lemma invoke_all_status slots exitCode st1 st2 w :
  invoke_all fromUtf8 slots exitCode st1 w =
  invoke_all fromUtf8 slots exitCode st2 w.
Proof.
  revert w. induction slots as [|c slots IH]; intros w; [done|].
  simpl. unfold mbind, M_bind.
  replace (lambda_finished fromUtf8 (cap_proc c) (cap_requestId c) exitCode st2 w)
    with (lambda_finished fromUtf8 (cap_proc c) (cap_requestId c) exitCode st1 w)
    by done.
  destruct (lambda_finished _ _ _ _ _ w) as [[[] w1]|]; [apply IH|done].
Qed.

(** X5: the [QProcess::ExitStatus] of the child is not looked at: a child
    that crashed is reported exactly like one that exited normally with
    the same exit code. *)
Theorem crash_reported_like_normal_exit w p exitCode :
  step w (OsExited p exitCode CrashExit) = step w (OsExited p exitCode NormalExit).
Proof.
  unfold step; simpl. destruct (proc_in Running p w); [|done].
  f_equal. unfold mbind, M_bind.
  destruct (with_proc p _ w) as [[slots w1]|]; [|done].
  apply invoke_all_status.
Qed.

(** *** The standard error of the children *)

Lemma erase_lookup w p :
  heap (erase_stderr w) !! p = set_stderr [] <$> heap w !! p.
Proof. unfold erase_stderr; simpl. apply lookup_fmap. Qed.

Lemma erase_insert w p q :
  set_heap (<[p := set_stderr [] q]> (heap (erase_stderr w))) (erase_stderr w) =
  erase_stderr (set_heap (<[p := q]> (heap w)) w).
Proof. unfold erase_stderr, set_heap; simpl. by rewrite fmap_insert. Qed.

Lemma enabled_erase w e : enabled (erase_stderr w) e = enabled w e.
Proof.
  destruct e; try done; unfold enabled, proc_in; rewrite erase_lookup;
    by destruct (heap w !! p).
Qed.

Lemma ignores_bind {A B} (m : M A) (f : A → M B) :
  ignores_stderr m → (∀ a, ignores_stderr (f a)) → ignores_stderr (m ≫= f).
Proof.
  intros Hm Hf w. unfold mbind, M_bind. rewrite Hm.
  destruct (m w) as [[a w1]|]; simpl; [apply Hf|done].
Qed.

Lemma ignores_with_proc {A} p (f : QProcess → A * QProcess) :
  (∀ q, f (set_stderr [] q) = ((f q).1, set_stderr [] (f q).2)) →
  ignores_stderr (with_proc p f).
Proof.
  intros Hf w. unfold with_proc. rewrite erase_lookup.
  destruct (heap w !! p) as [q|]; [|done].
  unfold fmap, option_fmap, option_map. rewrite Hf. cbn [fst snd].
  by rewrite erase_insert.
Qed.

Lemma ignores_lambda proc requestId exitCode st :
  ignores_stderr (lambda_finished fromUtf8 proc requestId exitCode st).
Proof.
  unfold lambda_finished. apply ignores_bind.
  - by apply ignores_with_proc.
  - intros bytes. apply ignores_bind.
    + by intros w.
    + intros _. by apply ignores_with_proc.
Qed.

Lemma ignores_invoke_all slots exitCode st :
  ignores_stderr (invoke_all fromUtf8 slots exitCode st).
Proof.
  induction slots as [|c slots IH]; simpl.
  - by intros w.
  - apply ignores_bind; [apply ignores_lambda | by intros _].
Qed.

Lemma ignores_run requestId args : ignores_stderr (run requestId args).
Proof.
  unfold run. apply ignores_bind.
  - intros w. unfold new_QProcess, erase_stderr, set_heap; simpl.
    by rewrite fmap_insert.
  - intros proc. apply ignores_bind.
    + by apply ignores_with_proc.
    + intros _ w. unfold QProcess_start. rewrite erase_lookup.
      destruct (heap w !! proc) as [q|]; simpl; [|done].
      destruct (state q); simpl; try done.
      unfold erase_stderr, set_heap; simpl. by rewrite fmap_insert.
Qed.

Lemma step_erase w e w' :
  step w e = Some w' →
  match e with
  | OsStderr _ _ => erase_stderr w' = erase_stderr w
  | _ => step (erase_stderr w) e = Some (erase_stderr w')
  end.
Proof.
  unfold step. rewrite enabled_erase.
  destruct (enabled w e) eqn:He; [|done]. intros Hstep.
  assert (Hgen : ignores_stderr (handle fromUtf8 e) →
                 snd <$> handle fromUtf8 e (erase_stderr w) = Some (erase_stderr w')).
  { intros Hig. rewrite Hig.
    destruct (handle fromUtf8 e w) as [[[] w1]|]; by simplify_eq/=. }
  destruct e; simpl in *.
  - apply Hgen, ignores_run.
  - apply Hgen. by apply ignores_with_proc.
  - apply Hgen. by apply ignores_with_proc.
  - apply Hgen. by apply ignores_with_proc.
  - unfold with_proc in Hstep.
    destruct (heap w !! p) as [q|] eqn:Hq; simplify_eq/=.
    unfold erase_stderr, set_heap; simpl. f_equal.
    rewrite fmap_insert; simpl. apply insert_id.
    by rewrite lookup_fmap, Hq.
  - apply Hgen. apply ignores_bind.
    + by apply ignores_with_proc.
    + intros slots. apply ignores_invoke_all.
  - apply Hgen. intros w0. simpl. unfold erase_stderr, set_heap; simpl.
    by rewrite fmap_delete.
Qed.

Lemma exec_erase tr w w' :
  exec w tr = Some w' →
  exec (erase_stderr w) (strip_stderr tr) = Some (erase_stderr w').
Proof.
  revert w. induction tr as [|e tr IH]; intros w Hex; simpl in *.
  - by simplify_eq.
  - destruct (step w e) as [w1|] eqn:Hstep; [|done].
    pose proof (step_erase _ _ _ Hstep) as Her.
    destruct e; simpl; try (rewrite Her; by apply IH).
    rewrite <- Her. by apply IH.
Qed.

(** X6: what the children write to their standard error has no effect on
    what the bridge does: the same run without those writes is possible
    too, and it makes the same spawn requests and emits the same signals
    in the same order. *)
Theorem stderr_has_no_effect tr w :
  exec init tr = Some w →
  ∃ w0, exec init (strip_stderr tr) = Some w0 ∧
        emitted w0 = emitted w ∧ spawned w0 = spawned w.
Proof.
  intros Hex. exists (erase_stderr w). split; [|done].
  apply exec_erase in Hex.
  replace (erase_stderr init) with init in Hex; [done|].
  unfold erase_stderr, set_heap, init; simpl. by rewrite fmap_empty.
Qed.

End Proofs.

(** ** The claims at the concrete runs *)

Lemma sample_world_reached :
  exec decode_ascii init sample_trace = Some sample_world.
Proof. by vm_compute. Qed.

Lemma running_world_reached :
  exec decode_ascii init running_trace = Some running_world.
Proof. by vm_compute. Qed.

Lemma sample_signal_emitted : (1, sample_signal) ∈ emitted sample_world.
Proof. apply list_elem_of_In. vm_compute. tauto. Qed.

Lemma finished_carries_request_id_witness :
  ∃ args, calls sample_trace !! 1 = Some (sig_requestId sample_signal, args).
Proof.
  apply (finished_carries_request_id decode_ascii sample_trace sample_world).
  - exact sample_world_reached.
  - exact sample_signal_emitted.
Defined.

Lemma finished_once_per_exit_witness :
  length (emitted_for 1 sample_world) = 1 ∧
  emitted_for 2 sample_world = [] ∧
  ∃ w', step decode_ascii running_world (OsExited 0 0 NormalExit) = Some w' ∧
        length (emitted_for 0 w') = 1.
Proof.
  split_and!.
  - by destruct (finished_once_per_exit decode_ascii sample_trace sample_world 1
                   sample_world_reached) as (-> & _).
  - by apply (finished_once_per_exit decode_ascii sample_trace sample_world 2
                sample_world_reached).
  - by apply (finished_once_per_exit decode_ascii running_trace running_world 0
                running_world_reached).
Defined.

(** C2 as stated fails: for a call whose child cannot be executed no
    [finished] signal is emitted, then or at any later time. *)
Lemma finished_never_emitted_after_launch_failure :
  ∃ w, exec decode_ascii init failing_trace = Some w ∧
       proc_in NotRunning 0 w = true ∧
       ∀ tr' w', exec decode_ascii w tr' = Some w' → emitted_for 0 w' = [].
Proof.
  eexists. split_and!; [by vm_compute | by vm_compute |].
  intros tr' w' Hex.
  apply (failed_no_signal decode_ascii (failing_trace ++ tr')).
  - rewrite exec_app.
    replace (exec decode_ascii init failing_trace) with
      (Some (default init (exec decode_ascii init failing_trace)))
      by (by vm_compute).
    simpl. rewrite <- Hex. by vm_compute.
  - by rewrite failed_app.
Qed.

Lemma finished_at_most_once_witness :
  length (emitted_for 0 sample_world) ≤ 1 ∧
  enabled sample_world (OsExited 0 7 NormalExit) = false.
Proof.
  destruct (finished_at_most_once decode_ascii sample_trace sample_world 0
              sample_world_reached) as [H1 H2].
  split; [exact H1|]. apply H2. by vm_compute.
Defined.

Lemma launches_muralis_with_args_witness :
  spawned sample_world =
  [ mkSpawn 0 (QStringLiteral "muralis") [QStringLiteral "list"];
    mkSpawn 1 (QStringLiteral "muralis") [QStringLiteral "apply"; QStringLiteral "x"];
    mkSpawn 2 (QStringLiteral "muralis") [] ].
Proof.
  by rewrite (launches_muralis_with_args decode_ascii sample_trace sample_world
                sample_world_reached).
Defined.

Lemma finished_reports_stdout_and_exit_code_witness :
  sig_stdoutData sample_signal = decode_ascii [x68; x69] ∧
  exits 1 sample_trace = [sig_exitCode sample_signal].
Proof.
  apply (finished_reports_stdout_and_exit_code decode_ascii sample_trace
           sample_world 1 sample_signal).
  - exact sample_world_reached.
  - exact sample_signal_emitted.
Defined.

Lemma launch_failure_not_surfaced_witness :
  emitted failed_world = emitted init_called ∧
  spawned failed_world = spawned init_called ∧
  emitted_for 0 failed_world = [].
Proof.
  destruct (launch_failure_not_surfaced decode_ascii
              [CallRun (QStringLiteral "req-1") [QStringLiteral "list"]]
              init_called 0 failed_world) as (H1 & H2 & H3 & _).
  - by vm_compute.
  - by vm_compute.
  - split_and!; [exact H1 | exact H2 |]. by apply (H3 [] failed_world).
Defined.

Lemma launches_are_isolated_witness :
  emitted_for 1 sample_world = [sample_signal] ∧
  emitted_for 0 sample_world =
    [mkFinished (QStringLiteral "req-1") (QStringLiteral "A") 3].
Proof.
  split.
  - by destruct (launches_are_isolated decode_ascii sample_trace sample_world 1
                   (QStringLiteral "req-2")
                   [QStringLiteral "apply"; QStringLiteral "x"]
                   sample_world_reached eq_refl) as (-> & _).
  - by destruct (launches_are_isolated decode_ascii sample_trace sample_world 0
                   (QStringLiteral "req-1") [QStringLiteral "list"]
                   sample_world_reached eq_refl) as (-> & _).
Defined.

(** ** The further properties at the concrete runs *)

Lemma failed_world_reached :
  exec decode_ascii init failing_trace = Some failed_world.
Proof. by vm_compute. Qed.

Lemma noisy_world_reached :
  exec decode_ascii init noisy_trace = Some noisy_world.
Proof. by vm_compute. Qed.

Lemma signals_in_exit_order_witness : (emitted sample_world).*1 = [1; 0].
Proof.
  by rewrite (signals_in_exit_order decode_ascii sample_trace sample_world
                sample_world_reached).
Defined.

Lemma no_use_after_delete_witness :
  ∃ w', step decode_ascii running_world (OsExited 0 0 NormalExit) = Some w' ∧
        exec decode_ascii init (running_trace ++ [OsExited 0 0 NormalExit])
          = Some w'.
Proof.
  apply (no_use_after_delete decode_ascii running_trace running_world).
  - exact running_world_reached.
  - by vm_compute.
Defined.

Lemma released_iff_signalled_witness : length (emitted_for 1 sample_world) = 1.
Proof.
  apply (released_iff_signalled decode_ascii sample_trace sample_world 1
           (QStringLiteral "req-2") [QStringLiteral "apply"; QStringLiteral "x"]).
  - exact sample_world_reached.
  - reflexivity.
  - left. by vm_compute.
Defined.

Lemma failed_launch_never_released_witness :
  ∃ q, heap failed_world !! 0 = Some q ∧ state q = NotRunning ∧
       deferredDelete q = false ∧
       enabled failed_world (DeferredDelete 0) = false.
Proof.
  apply (failed_launch_never_released decode_ascii failing_trace failed_world 0
           [] failed_world).
  - exact failed_world_reached.
  - reflexivity.
  - reflexivity.
Defined.

Lemma stderr_has_no_effect_witness :
  ∃ w0, exec decode_ascii init (strip_stderr noisy_trace) = Some w0 ∧
        emitted w0 = emitted noisy_world ∧ spawned w0 = spawned noisy_world.
Proof.
  apply (stderr_has_no_effect decode_ascii noisy_trace noisy_world).
  exact noisy_world_reached.
Defined.

End RunnerProps.

Module MainProps.
Import Main.

Section Proofs.

Variable fromJson : QByteArray → QJsonDocument.

Local Abbreviation readJsonFile := (readJsonFile fromJson).
Local Abbreviation isDark := (isDark fromJson).
Local Abbreviation main := (main fromJson).

Local Abbreviation THEME := "QT_QUICK_CONTROLS_MATERIAL_THEME"%string.

(** *** The shape of [main] *)

Lemma main_actions plat :
  ∃ rest,
    (main plat).1 =
      bootstrap (isDark plat) (writableLocation plat ConfigLocation)
        (stateDir plat) ++ rest ∧
    getenv THEME rest = None.
Proof.
  unfold main, Main.main. case_bool_decide; simpl; by eexists.
Qed.

Lemma getenv_bootstrap dark configDir stateDir rest :
  getenv THEME rest = None →
  getenv THEME (bootstrap dark configDir stateDir ++ rest) =
    Some (if dark then "Dark" else "Light")%string.
Proof.
  intros Hrest. unfold bootstrap. simpl. by rewrite Hrest.
Qed.

Lemma main_theme plat :
  getenv THEME (main plat).1 = Some (if isDark plat then "Dark" else "Light")%string.
Proof.
  destruct (main_actions plat) as (rest & -> & Hrest).
  by apply getenv_bootstrap.
Qed.

Lemma isDark_spec plat :
  isDark plat = false ↔
  readJsonFile plat (session_path plat) !! QStringLiteral "isLightMode"
    = Some (QJsonBool true).
Proof.
  unfold isDark, Main.isDark, QJsonObject_value.
  destruct (readJsonFile plat (session_path plat) !! QStringLiteral "isLightMode")
    as [[| [|] | | | | |]|]; simpl; split; congruence.
Qed.

(** ** The claims about the bootstrap *)

(** C7: when the session file cannot be opened, or its bytes are not a
    JSON document, [readJsonFile] returns the empty object and start-up
    neither fails nor reports anything: [main] sets the Dark theme, its
    actions and its result are exactly those of a start with the Dark
    theme, in which the only lines printed are the four about the loading
    and the one about its outcome, and, when the UI description loads, it
    enters the event loop and returns what [app.exec()] returns. *)
Theorem session_failure_tolerated plat :
  (file_contents plat (session_path plat) = None ∨
   ∃ bytes, file_contents plat (session_path plat) = Some bytes ∧
            fromJson bytes = DocNull) →
  readJsonFile plat (session_path plat) = ∅ ∧
  getenv THEME (main plat).1 = Some "Dark"%string ∧
  main plat =
    (let loaded :=
       bootstrap true (writableLocation plat ConfigLocation) (stateDir plat) in
     if bool_decide (rootObjects_size plat = 0)
     then
       (loaded ++
          [fprintf_stderr (QStringLiteral ("Failed to load QML" ++ newline))],
        (-1)%Z)
     else
       (loaded ++
          [fprintf_stderr (QStringLiteral "QML loaded OK, "
                             ++ QStringLiteral (pretty (rootObjects_size plat))
                             ++ QStringLiteral (" root objects" ++ newline));
           app_exec],
        exec_result plat)) ∧
  (rootObjects_size plat ≠ 0 →
   (main plat).2 = exec_result plat ∧ last (main plat).1 = Some app_exec).
Proof.
  intros Hfile.
  assert (Hempty : readJsonFile plat (session_path plat) = ∅).
  { unfold readJsonFile, Main.readJsonFile.
    destruct Hfile as [-> | (bytes & -> & ->)]; done. }
  assert (Hdark : isDark plat = true).
  { unfold isDark, Main.isDark. by rewrite Hempty. }
  assert (Hmain : main plat =
    (let loaded :=
       bootstrap true (writableLocation plat ConfigLocation) (stateDir plat) in
     if bool_decide (rootObjects_size plat = 0)
     then
       (loaded ++
          [fprintf_stderr (QStringLiteral ("Failed to load QML" ++ newline))],
        (-1)%Z)
     else
       (loaded ++
          [fprintf_stderr (QStringLiteral "QML loaded OK, "
                             ++ QStringLiteral (pretty (rootObjects_size plat))
                             ++ QStringLiteral (" root objects" ++ newline));
           app_exec],
        exec_result plat))).
  { unfold main, Main.main. fold (isDark plat). by rewrite Hdark. }
  split_and!; [done| | exact Hmain |].
  - by rewrite main_theme, Hdark.
  - intros Hroots. rewrite Hmain. cbn zeta.
    rewrite bool_decide_eq_false_2 by done. cbn [fst snd]. split; [done|].
    match goal with
    | |- last (?l ++ [?a; ?b]) = _ =>
        change (l ++ [a; b]) with (l ++ ([a] ++ [b]))
    end.
    by rewrite app_assoc, last_snoc.
Qed.

(** C8: when the engine has no root object after loading the UI
    description, [main] returns -1, which the parent process sees as a
    nonzero exit status, and [app.exec()] is not called. *)
Theorem qml_load_failure_is_fatal plat :
  rootObjects_size plat = 0 →
  (main plat).2 = (-1)%Z ∧
  exit_status (main plat).2 ≠ 0%Z ∧
  app_exec ∉ (main plat).1.
Proof.
  intros Hroots. unfold main, Main.main.
  rewrite bool_decide_eq_true_2 by done. simpl. split_and!; [done|done|].
  intros Hin. unfold bootstrap in Hin.
  repeat (apply elem_of_cons in Hin as [Hin|Hin]; [discriminate|]).
  by apply elem_of_nil in Hin.
Qed.

(** C9: [main] sets the Light theme exactly when the value of
    [isLightMode] in the session object is the boolean true, and the Dark
    theme in every other case. *)
Theorem light_theme_iff_isLightMode_true plat :
  (getenv THEME (main plat).1 = Some "Light"%string ↔
   readJsonFile plat (session_path plat) !! QStringLiteral "isLightMode"
     = Some (QJsonBool true)) ∧
  (getenv THEME (main plat).1 = Some "Dark"%string ↔
   readJsonFile plat (session_path plat) !! QStringLiteral "isLightMode"
     ≠ Some (QJsonBool true)).
Proof.
  rewrite main_theme, <- isDark_spec.
  destruct (isDark plat); split; split; congruence.
Qed.

(** ** Further properties of the bootstrap *)

(** *** The state directory *)

Local Abbreviation share := (QStringLiteral "/share").
Local Abbreviation state := (QStringLiteral "/state").

Lemma replace_absent before after s :
  contains before s = false → replace_from 0 before after s = s.
Proof.
  induction s as [|c s IH]; [done|]. simpl contains.
  intros [Hs Hc]%orb_false_iff. cbn [replace_from].
  rewrite Hs. f_equal. by apply IH.
Qed.

(** X7: when "/share" does not occur in the data location, the state
    directory is the data location itself. *)
Theorem stateDir_without_share plat :
  contains share (writableLocation plat GenericDataLocation) = false →
  stateDir plat = writableLocation plat GenericDataLocation.
Proof. intros Hc. unfold stateDir, QString_replace. by apply replace_absent. Qed.

(** An occurrence of "/share" that begins in [pre] lies within [pre]:
    the pattern has its only slash in front. *)
Lemma share_no_straddle pre rest :
  pre ≠ [] →
  starts_with share (pre ++ share ++ rest) = true →
  starts_with share pre = true.
Proof.
  intros Hne.
  destruct pre as [|c1 [|c2 [|c3 [|c4 [|c5 [|c6 pre]]]]]]; [done|..];
    cbn; repeat case_bool_decide; simplify_eq/=; done.
Qed.

Lemma replace_share_at pre post :
  contains share pre = false →
  replace_from 0 share state (pre ++ share ++ post) =
  pre ++ state ++ replace_from 0 share state post.
Proof.
  induction pre as [|c pre IH]; [done|].
  cbn [contains]. intros [Hs Hc]%orb_false_iff.
  change ((c :: pre) ++ share ++ post) with (c :: (pre ++ share ++ post)).
  cbn [replace_from].
  destruct (starts_with share (c :: pre ++ share ++ post)) eqn:Hst.
  - apply (share_no_straddle (c :: pre) post) in Hst; [congruence|done].
  - simpl. f_equal. by apply IH.
Qed.

(** X8: when the data location is [pre], then "/share", then [post], and
    "/share" does not occur in [pre], the state directory is [pre], then
    "/state", then [post] with its occurrences replaced as well. *)
Theorem stateDir_replaces_share plat pre post :
  writableLocation plat GenericDataLocation = pre ++ share ++ post →
  contains share pre = false →
  stateDir plat = pre ++ state ++ QString_replace share state post.
Proof.
  intros Hloc Hc. unfold stateDir, QString_replace. rewrite Hloc.
  by apply replace_share_at.
Qed.

(** A character of the result that is not a slash was copied from the
    input. *)
Lemma replace_copied s x r :
  x ≠ 47%N → replace_from 0 share state s = x :: r →
  ∃ s0, s = x :: s0 ∧ replace_from 0 share state s0 = r.
Proof.
  intros Hx. destruct s as [|c s]; [done|]. cbn [replace_from].
  destruct (starts_with share (c :: s)).
  - cbn. intros [= <- _]. done.
  - intros [= <- <-]. by eexists.
Qed.

Lemma starts_with_share c r :
  starts_with share (c :: r) = true ↔
  c = 47%N ∧ ∃ r', r = 115%N :: 104%N :: 97%N :: 114%N :: 101%N :: r'.
Proof.
  change share with [47; 115; 104; 97; 114; 101]%N.
  destruct r as [|x1 [|x2 [|x3 [|x4 [|x5 r']]]]]; cbn [starts_with];
    (split; [ intros H; repeat (apply andb_prop in H as [?%bool_decide_eq_true H]);
              try done; subst; by eauto
            | intros [-> [r0 Hr]]; by simplify_eq ]).
Qed.

Lemma starts_with_replaced c s :
  starts_with share (c :: replace_from 0 share state s) = true →
  starts_with share (c :: s) = true.
Proof.
  rewrite !starts_with_share. intros [-> [r' H1]]. split; [done|].
  apply replace_copied in H1 as (s1 & -> & H1); [|done].
  apply replace_copied in H1 as (s2 & -> & H1); [|done].
  apply replace_copied in H1 as (s3 & -> & H1); [|done].
  apply replace_copied in H1 as (s4 & -> & H1); [|done].
  apply replace_copied in H1 as (s5 & -> & H1); [|done].
  by eexists.
Qed.

Lemma replace_from_clean k s :
  contains share (replace_from k share state s) = false.
Proof.
  revert k. induction s as [|c s IH]; intros k; [by destruct k|].
  destruct k as [|k]; cbn [replace_from]; [|apply IH].
  destruct (starts_with share (c :: s)) eqn:Hst.
  - change (length share - 1) with 5. cbn. apply IH.
  - cbn [contains]. rewrite IH, orb_false_r.
    destruct (starts_with share (c :: replace_from 0 share state s)) eqn:Hr;
      [|done].
    apply starts_with_replaced in Hr. congruence.
Qed.

(** X9: "/share" does not occur in the state directory, whatever the data
    location is: every occurrence is replaced and the replacement brings
    in no new one. *)
Theorem stateDir_has_no_share plat : contains share (stateDir plat) = false.
Proof. apply replace_from_clean. Qed.

(** *** The two ways [main] ends *)

(** X10: when the engine has a root object after loading, [main] enters
    the event loop as its last action, and only then, and returns what
    [app.exec()] returns. *)
Theorem ui_loaded_enters_event_loop plat :
  rootObjects_size plat ≠ 0 →
  (main plat).2 = exec_result plat ∧
  ∃ pre, (main plat).1 = pre ++ [app_exec] ∧ app_exec ∉ pre.
Proof.
  intros Hroots. unfold main, Main.main.
  rewrite bool_decide_eq_false_2 by done. cbn [fst snd]. split; [done|].
  eexists (_ ++ [_]). split; [by rewrite <- app_assoc|].
  intros Hin. apply elem_of_app in Hin as [Hin|Hin].
  - unfold bootstrap in Hin.
    repeat (apply elem_of_cons in Hin as [Hin|Hin]; [discriminate|]).
    by apply elem_of_nil in Hin.
  - apply list_elem_of_singleton in Hin. discriminate.
Qed.

(** X11: [main] looks at the session file for one thing only, whether
    [isLightMode] is the boolean true: on two platforms that agree on
    that, and on everything but their files, it performs the same actions
    and returns the same value. *)
Theorem main_reads_only_isLightMode plat1 plat2 :
  writableLocation plat1 = writableLocation plat2 →
  rootObjects_size plat1 = rootObjects_size plat2 →
  exec_result plat1 = exec_result plat2 →
  (readJsonFile plat1 (session_path plat1) !! QStringLiteral "isLightMode"
     = Some (QJsonBool true) ↔
   readJsonFile plat2 (session_path plat2) !! QStringLiteral "isLightMode"
     = Some (QJsonBool true)) →
  main plat1 = main plat2.
Proof.
  intros Hloc Hroots Hexec Hlight.
  assert (Hdark : isDark plat1 = isDark plat2).
  { rewrite <- !isDark_spec in Hlight.
    destruct (isDark plat1), (isDark plat2); intuition congruence. }
  unfold main, Main.main, stateDir.
  fold (isDark plat1). fold (isDark plat2).
  by rewrite Hdark, Hloc, Hroots, Hexec.
Qed.

(** *** What is set and printed on the way *)

(** X12: the line about [isDark] that [main] prints says 1 exactly when
    the theme it has set is Dark. *)
Theorem isDark_line_matches_theme plat :
  fprintf_stderr (QStringLiteral ("isDark: 1" ++ newline)) ∈ (main plat).1 ↔
  getenv THEME (main plat).1 = Some "Dark"%string.
Proof.
  rewrite main_theme. unfold main, Main.main. fold (isDark plat).
  destruct (isDark plat); case_bool_decide; cbn [fst]; split; try done.
  - intros _. apply elem_of_app. left. unfold bootstrap.
    do 16 apply list_elem_of_further. apply list_elem_of_here.
  - intros _. apply elem_of_app. left. unfold bootstrap.
    do 16 apply list_elem_of_further. apply list_elem_of_here.
  - intros Hin. exfalso. unfold bootstrap in Hin.
    apply elem_of_app in Hin as [Hin|Hin];
      repeat (apply elem_of_cons in Hin as [Hin|Hin]; [discriminate|]);
      by apply elem_of_nil in Hin.
  - intros Hin. exfalso. unfold bootstrap in Hin.
    apply elem_of_app in Hin as [Hin|Hin];
      repeat (apply elem_of_cons in Hin as [Hin|Hin]; [discriminate|]);
      by apply elem_of_nil in Hin.
Qed.

(** X13: both environment variables are set, the theme variable to the
    theme chosen from the session file, before the application object is
    created, and none is set after. *)
Theorem environment_set_before_application plat :
  ∃ pre post,
    (main plat).1 = pre ++ new_QGuiApplication :: post ∧
    (new_QGuiApplication ∉ pre) ∧
    qputenv "QML_XHR_ALLOW_FILE_READ" "1" ∈ pre ∧
    qputenv THEME (if isDark plat then "Dark" else "Light") ∈ pre ∧
    getenv "QML_XHR_ALLOW_FILE_READ" pre = Some "1"%string ∧
    getenv THEME pre = Some (if isDark plat then "Dark" else "Light")%string ∧
    ∀ name value, qputenv name value ∉ post.
Proof.
  unfold main, Main.main. fold (isDark plat).
  exists [ qInstallMessageHandler;
           qputenv "QML_XHR_ALLOW_FILE_READ" "1";
           qputenv THEME (if isDark plat then "Dark" else "Light") ].
  case_bool_decide; cbn [fst]; eexists;
    (split_and!;
     [ reflexivity
     | intros Hin;
       repeat (apply elem_of_cons in Hin as [Hin|Hin]; [discriminate|]);
       by apply elem_of_nil in Hin
     | apply list_elem_of_further, list_elem_of_here
     | do 2 apply list_elem_of_further; apply list_elem_of_here
     | done
     | done
     | intros name value Hin;
       repeat (apply elem_of_cons in Hin as [Hin|Hin]; [discriminate|]);
       by apply elem_of_nil in Hin ]).
Qed.

(** *** The message handler *)

(** X14: the line [messageHandler] prints tells the type of the message
    and the text as printed: two calls that print the same line had the
    same type and the same printed text. *)
Theorem messageHandler_injective qPrintable type1 msg1 type2 msg2 :
  messageHandler qPrintable type1 msg1 = messageHandler qPrintable type2 msg2 →
  type1 = type2 ∧ qPrintable msg1 = qPrintable msg2.
Proof.
  unfold messageHandler.
  change (list_byte_of_string newline) with [x0a].
  destruct type1, type2; cbn; intros H; simplify_eq;
    split; try done; by eapply app_inv_tail.
Qed.

End Proofs.

(** ** The claims at the concrete platforms *)

Lemma session_failure_tolerated_witness :
  readJsonFile parse_sample broken_platform (session_path broken_platform) = ∅ ∧
  getenv "QT_QUICK_CONTROLS_MATERIAL_THEME" (main parse_sample broken_platform).1
    = Some "Dark"%string ∧
  (main parse_sample broken_platform).2 = exec_result broken_platform ∧
  last (main parse_sample broken_platform).1 = Some app_exec.
Proof.
  destruct (session_failure_tolerated parse_sample broken_platform)
    as (H1 & H2 & _ & H4).
  - right. exists [x7b]. by vm_compute.
  - split_and!; [exact H1 | exact H2 | by apply H4 | by apply H4].
Defined.

Lemma qml_load_failure_is_fatal_witness :
  (main parse_sample bare_platform).2 = (-1)%Z ∧
  exit_status (main parse_sample bare_platform).2 ≠ 0%Z ∧
  app_exec ∉ (main parse_sample bare_platform).1.
Proof. apply (qml_load_failure_is_fatal parse_sample bare_platform). reflexivity. Defined.

(** The three platforms, run. *)
Example bare_platform_is_dark :
  getenv "QT_QUICK_CONTROLS_MATERIAL_THEME" (main parse_sample bare_platform).1
    = Some "Dark"%string.
Proof. reflexivity. Qed.

Example light_platform_is_light :
  getenv "QT_QUICK_CONTROLS_MATERIAL_THEME" (main parse_sample light_platform).1
    = Some "Light"%string ∧
  (main parse_sample light_platform).2 = 0%Z ∧
  app_exec ∈ (main parse_sample light_platform).1.
Proof.
  split_and!; [by vm_compute | by vm_compute |].
  apply list_elem_of_In. vm_compute. tauto.
Qed.

(** ** The further properties at the concrete platforms *)

Lemma stateDir_without_share_witness :
  stateDir flat_platform = QStringLiteral "/data".
Proof. apply (stateDir_without_share flat_platform). reflexivity. Defined.

Lemma stateDir_replaces_share_witness :
  stateDir nested_platform = QStringLiteral "/state/u/.local/state" ∧
  stateDir broken_platform = QStringLiteral "/home/u/.local/state".
Proof.
  split.
  - by rewrite (stateDir_replaces_share nested_platform []
                  (QStringLiteral "/u/.local/share")).
  - by rewrite (stateDir_replaces_share broken_platform
                  (QStringLiteral "/home/u/.local") []).
Defined.

Lemma ui_loaded_enters_event_loop_witness :
  (main parse_sample light_platform).2 = exec_result light_platform ∧
  ∃ pre, (main parse_sample light_platform).1 = pre ++ [app_exec] ∧
         app_exec ∉ pre.
Proof. by apply (ui_loaded_enters_event_loop parse_sample light_platform). Defined.

Lemma main_reads_only_isLightMode_witness :
  main parse_sample broken_platform = main parse_sample absent_platform.
Proof.
  apply (main_reads_only_isLightMode parse_sample broken_platform absent_platform);
    [reflexivity | reflexivity | reflexivity |].
  split; intros H; vm_compute in H; discriminate.
Defined.

Lemma messageHandler_injective_witness :
  QtWarningMsg = QtWarningMsg ∧
  print_latin1 (QStringLiteral "no such file") =
  print_latin1 (QStringLiteral "no such file").
Proof.
  by apply (messageHandler_injective print_latin1
              QtWarningMsg (QStringLiteral "no such file")
              QtWarningMsg (QStringLiteral "no such file")).
Defined.

Example messageHandler_warning :
  messageHandler print_latin1 QtWarningMsg (QStringLiteral "no such file") =
  list_byte_of_string ("[warn] no such file" ++ newline).
Proof. reflexivity. Qed.

End MainProps.
